(** * zmqtulip: the event-loop adapter of a ZeroMQ socket

    A shallow embedding of [zmqtulip/core.py] (class [Socket]) together
    with the properties of its receive path, its pending-write queue and
    its write-readiness drain.

    The adapter runs on one loop thread, so the embedding is sequential:
    every method is a function from a world to a result and a world.  The
    world holds the adapter's own field ([_buffer]), the heap of
    [tulip.Future] objects, the loop's registrations for the socket's
    descriptor, and the calls made so far on the loop and on the
    transport.  The transport ([zmq.Socket.send] / [zmq.Socket.recv]) is
    external: its answers are given by two oracles indexed by the number
    of calls already made. *)

From Stdlib Require Import ZArith List Lia Bool Sorted.
From Stdlib.Strings Require Import Byte.
From stdpp Require Import base list.
Import ListNotations.

Open Scope Z_scope.
Open Scope nat_scope.

(** ** Python values and exceptions *)

(** The objects a caller may pass as [data], and the values the transport
    hands back. *)
Inductive pyobj :=
| PyNone
| PyInt (z : Z)
| PyStr (s : list byte)
| PyBytes (b : list byte)
| PyTracker (n : nat).

(** Exceptions.  [ZMQError] carries [errno]; [OtherError] stands for any
    exception that is an [Exception] but not a [zmq.ZMQError]. *)
Inductive exn :=
| ZMQError (errno : Z)
| OtherError (tag : nat)
| InvalidStateError
| AssertionError (repr : pyobj).

(** What a call on an external object yields. *)
Inductive outcome :=
| Done (v : pyobj)
| Fails (e : exn).

(** What a method of the adapter yields. *)
Inductive res (A : Type) :=
| Ret (a : A)
| Raise (e : exn).
Arguments Ret {A} a.
Arguments Raise {A} e.

(** ** Futures *)

(** [tulip.Future]: pending, then cancelled or finished with a result or
    an exception. *)
Inductive future :=
| Pending
| Cancelled
| Finished (r : outcome).

(** ** The world *)

(** An element of [_buffer]: the tuple [(fut, data, flags, copy, track)].
    The same shape records a call on the transport's [send], tagged with
    the future of the [send] call it serves. *)
Record entry := Entry {
  e_fut : nat;
  e_data : list byte;
  e_flags : Z;
  e_copy : bool;
  e_track : bool
}.

(** The arguments bound by [add_reader(fd, self._recv, fut, True, *args)]. *)
Record recv_cb := RecvCb {
  cb_fut : nat;
  cb_flags : Z;
  cb_copy : bool;
  cb_track : bool
}.

(** A call on the transport's [recv]. *)
Record recv_call := RecvCall {
  rc_flags : Z;
  rc_copy : bool;
  rc_track : bool
}.

(** Calls on the loop, for the socket's descriptor. *)
Inductive loop_call :=
| AddReader (cb : recv_cb)
| RemoveReader
| AddWriter
| RemoveWriter.

Record world := World {
  _buffer : list entry;          (* self._buffer, a deque *)
  futures : list future;         (* heap of Future objects, by allocation order *)
  reader : option recv_cb;       (* the loop's reader for _sock_fd *)
  writer : bool;                 (* the loop's writer for _sock_fd (always _send_ready) *)
  loop_calls : list loop_call;   (* calls made on the loop, oldest first *)
  sent : list entry;             (* calls of the transport's send, oldest first *)
  recvd : list recv_call;        (* calls of the transport's recv, oldest first *)
  closed : bool                  (* the transport socket has been closed *)
}.

Definition set_buffer (q : list entry) (w : world) : world :=
  World q (futures w) (reader w) (writer w) (loop_calls w) (sent w) (recvd w) (closed w).

Definition set_futures (fs : list future) (w : world) : world :=
  World (_buffer w) fs (reader w) (writer w) (loop_calls w) (sent w) (recvd w) (closed w).

Definition set_closed (b : bool) (w : world) : world :=
  World (_buffer w) (futures w) (reader w) (writer w) (loop_calls w) (sent w) (recvd w) b.

(** A socket just constructed: [_buffer = collections.deque()], nothing
    registered, nothing sent. *)
Definition init : world := World [] [] None false [] [] [] false.

(** *** Futures *)

(** [tulip.Future(loop=self._loop)]: a new pending future. *)
Definition Future (w : world) : nat * world :=
  (length (futures w), set_futures (futures w ++ [Pending]) w).

(** [fut.cancelled()] *)
Definition cancelled (fut : nat) (w : world) : bool :=
  match futures w !! fut with
  | Some Cancelled => true
  | _ => false
  end.

(** [fut.set_result] and [fut.set_exception]: both raise
    [InvalidStateError] unless the future is pending. *)
Definition settle (fut : nat) (r : outcome) (w : world) : res unit * world :=
  match futures w !! fut with
  | Some Pending => (Ret tt, set_futures (<[fut := Finished r]> (futures w)) w)
  | _ => (Raise InvalidStateError, w)
  end.

Definition set_result (fut : nat) (v : pyobj) : world -> res unit * world :=
  settle fut (Done v).

Definition set_exception (fut : nat) (e : exn) : world -> res unit * world :=
  settle fut (Fails e).

(** [fut.cancel()]: only a pending future changes state. *)
Definition cancel (fut : nat) (w : world) : world :=
  match futures w !! fut with
  | Some Pending => set_futures (<[fut := Cancelled]> (futures w)) w
  | _ => w
  end.

(** *** The loop's registrations for [_sock_fd] *)

Definition add_reader (cb : recv_cb) (w : world) : world :=
  World (_buffer w) (futures w) (Some cb) (writer w)
        (loop_calls w ++ [AddReader cb]) (sent w) (recvd w) (closed w).

Definition remove_reader (w : world) : world :=
  World (_buffer w) (futures w) None (writer w)
        (loop_calls w ++ [RemoveReader]) (sent w) (recvd w) (closed w).

Definition add_writer (w : world) : world :=
  World (_buffer w) (futures w) (reader w) true
        (loop_calls w ++ [AddWriter]) (sent w) (recvd w) (closed w).

Definition remove_writer (w : world) : world :=
  World (_buffer w) (futures w) (reader w) false
        (loop_calls w ++ [RemoveWriter]) (sent w) (recvd w) (closed w).

Section Adapter.

(** [zmq.NOBLOCK] and [zmq.EAGAIN]: constants of the transport library. *)
Variable NOBLOCK : Z.
Variable EAGAIN : Z.

(** The transport's answers: the [n]-th call of [send] (of [recv]) made
    on this socket yields [send_oracle n] ([recv_oracle n]). *)
Variable send_oracle : nat -> outcome.
Variable recv_oracle : nat -> outcome.

(** [super().send(data, flags, copy, track)]; the call is logged with the
    future it is made for. *)
Definition transport_send (e : entry) (w : world) : outcome * world :=
  (send_oracle (length (sent w)),
   World (_buffer w) (futures w) (reader w) (writer w) (loop_calls w)
         (sent w ++ [e]) (recvd w) (closed w)).

(** [super().recv(flags, copy, track)] *)
Definition transport_recv (flags : Z) (copy track : bool) (w : world)
  : outcome * world :=
  (recv_oracle (length (recvd w)),
   World (_buffer w) (futures w) (reader w) (writer w) (loop_calls w)
         (sent w) (recvd w ++ [RecvCall flags copy track]) (closed w)).

(** [flags & zmq.NOBLOCK], as a truth value *)
Definition has_noblock (flags : Z) : bool :=
  negb (Z.land flags NOBLOCK =? 0)%Z.

(** [exc.errno != zmq.EAGAIN] *)
Definition errno_ne_eagain (errno : Z) : bool :=
  negb (errno =? EAGAIN)%Z.

(** ** [Socket._recv] *)
Definition _recv (fut : nat) (registered : bool) (flags : Z) (copy track : bool)
    (w : world) : res unit * world :=
  let w1 := if registered then remove_reader w else w in
  if cancelled fut w1 then (Ret tt, w1)
  else
    let '(o, w2) := transport_recv flags copy track w1 in
    match o with
    | Fails (ZMQError errno) =>
        if errno_ne_eagain errno
        then set_exception fut (ZMQError errno) w2
        else (Ret tt, add_reader (RecvCb fut flags copy track) w2)
    | Fails exc => set_exception fut exc w2
    | Done data => set_result fut data w2
    end.

(** ** [Socket.recv]

    The coroutine either returns the data, raises, or reaches
    [yield from fut]. *)
Inductive recv_value :=
| Received (v : pyobj)
| Awaits (fut : nat).

Definition recv (flags : Z) (copy track : bool) (w : world)
  : res recv_value * world :=
  if has_noblock flags then
    let '(o, w1) := transport_recv flags copy track w in
    match o with
    | Done v => (Ret (Received v), w1)
    | Fails e => (Raise e, w1)
    end
  else
    let flags := Z.lor flags NOBLOCK in
    let '(o, w1) := transport_recv flags copy track w in
    match o with
    | Done v => (Ret (Received v), w1)
    | Fails (ZMQError errno) =>
        if errno_ne_eagain errno then (Raise (ZMQError errno), w1)
        else
          let '(fut, w2) := Future w1 in
          let '(r, w3) := _recv fut false flags copy track w2 in
          match r with
          | Ret _ => (Ret (Awaits fut), w3)
          | Raise e => (Raise e, w3)
          end
    | Fails e => (Raise e, w1)
    end.

(** ** [Socket.send]

    [Ret None] is the bare [return]; [Ret (Some fut)] is [return fut]. *)
Definition send (data : pyobj) (flags : Z) (copy track : bool) (w : world)
  : res (option nat) * world :=
  match data with
  | PyBytes b =>
      match b with
      | [] => (Ret None, w)
      | _ :: _ =>
          let '(fut, w1) := Future w in
          match _buffer w1 with
          | [] =>
              if has_noblock flags then
                let '(o, w2) := transport_send (Entry fut b flags copy track) w1 in
                match o with
                | Done r =>
                    match set_result fut r w2 with
                    | (Ret _, w3) => (Ret (Some fut), w3)
                    | (Raise e, w3) => (Raise e, w3)
                    end
                | Fails e => (Raise e, w2)
                end
              else
                let flags := Z.lor flags NOBLOCK in
                let '(o, w2) := transport_send (Entry fut b flags copy track) w1 in
                match o with
                | Done r =>
                    match set_result fut r w2 with
                    | (Ret _, w3) => (Ret (Some fut), w3)
                    | (Raise e, w3) => (Raise e, w3)
                    end
                | Fails (ZMQError errno) =>
                    if errno_ne_eagain errno then
                      match set_exception fut (ZMQError errno) w2 with
                      | (Ret _, w3) => (Ret None, w3)
                      | (Raise e, w3) => (Raise e, w3)
                      end
                    else
                      let w3 := add_writer w2 in
                      (Ret (Some fut),
                       set_buffer (_buffer w3 ++ [Entry fut b flags copy track]) w3)
                | Fails e => (Raise e, w2)
                end
          | _ :: _ =>
              (Ret (Some fut),
               set_buffer (_buffer w1 ++ [Entry fut b flags copy track]) w1)
          end
      end
  | _ => (Raise (AssertionError data), w)
  end.

(** ** [Socket._send_ready]

    The [while self._buffer] loop, by recursion on the queue it reads:
    at every iteration [q] is the content of [_buffer]. *)
Fixpoint _send_ready_loop (q : list entry) (w : world) : res unit * world :=
  match q with
  | [] => (Ret tt, remove_writer (set_buffer [] w))
  | e :: q' =>
      let w1 := set_buffer q' w in                 (* popleft *)
      let '(o, w2) := transport_send e w1 in
      match o with
      | Done r =>
          match set_result (e_fut e) r w2 with
          | (Ret _, w3) => _send_ready_loop q' w3
          | (Raise exc, w3) =>                     (* except Exception as exc *)
              set_exception (e_fut e) exc w3
          end
      | Fails (ZMQError errno) =>
          if errno_ne_eagain errno
          then set_exception (e_fut e) (ZMQError errno) w2
          else (Ret tt, set_buffer (e :: _buffer w2) w2)   (* appendleft *)
      | Fails exc => set_exception (e_fut e) exc w2
      end
  end.

Definition _send_ready (w : world) : res unit * world :=
  _send_ready_loop (_buffer w) w.

(** ** [close]

    [Socket] defines no [close]: the method is the one inherited from
    [zmq.Socket], which closes the transport socket and knows none of
    the fields the adapter adds. *)
Definition close (w : world) : world := set_closed true w.

(** ** Runs *)

(** What happens to a socket: calls of its methods by the application,
    readiness firings by the loop (which calls the registered callback,
    if any), and cancellation of a future by its holder. *)
Inductive event :=
| CallSend (data : pyobj) (flags : Z) (copy track : bool)
| CallRecv (flags : Z) (copy track : bool)
| WriteReady
| ReadReady
| CancelFuture (fut : nat)
| CallClose.

Definition fire_write (w : world) : res unit * world :=
  if writer w then _send_ready w else (Ret tt, w).

Definition fire_read (w : world) : res unit * world :=
  match reader w with
  | Some cb => _recv (cb_fut cb) true (cb_flags cb) (cb_copy cb) (cb_track cb) w
  | None => (Ret tt, w)
  end.

Definition step (w : world) (ev : event) : world :=
  match ev with
  | CallSend data flags copy track => snd (send data flags copy track w)
  | CallRecv flags copy track => snd (recv flags copy track w)
  | WriteReady => snd (fire_write w)
  | ReadReady => snd (fire_read w)
  | CancelFuture fut => cancel fut w
  | CallClose => close w
  end.

Definition run (evs : list event) (w : world) : world :=
  fold_left step evs w.

(** The transport answered [EAGAIN]. *)
Definition would_block (o : outcome) : bool :=
  match o with
  | Fails (ZMQError errno) => negb (errno_ne_eagain errno)
  | _ => false
  end.

End Adapter.

(** ** Predicates of the statements *)

(** The part of the world the write path owns, and how any step of the
    read path, a cancellation or a close leaves it. *)
Definition write_frame (w w' : world) : Prop :=
  _buffer w' = _buffer w /\ sent w' = sent w /\ writer w' = writer w /\
  length (futures w) <= length (futures w').

(** [fifo_ok q log n]: with [n] futures allocated, queue [q] and
    transport log [log] are in allocation order: the queue strictly, the
    log weakly (a retry repeats its future), and nothing queued is older
    than anything attempted. *)
Definition fifo_ok (q log : list entry) (n : nat) : Prop :=
  StronglySorted lt (map e_fut q) /\
  StronglySorted le (map e_fut log) /\
  Forall (fun e => e_fut e < n) q /\
  Forall (fun a => e_fut a < n) log /\
  Forall (fun a => Forall (fun e => e_fut a <= e_fut e) q) log.

Definition fifo_inv (w : world) : Prop :=
  fifo_ok (_buffer w) (sent w) (length (futures w)).

(** Whatever is queued has the writer registered to drain it. *)
Definition writer_covers (w : world) : Prop :=
  _buffer w <> [] -> writer w = true.

(** The calls of [add_reader] among the calls made on the loop. *)
Definition read_registrations (l : list loop_call) : nat :=
  length (List.filter (fun c => match c with AddReader _ => true | _ => false end) l).

(** ** The library's constants, and the runs used below *)

(** [zmq.NOBLOCK] is [ZMQ_DONTWAIT]; [zmq.EAGAIN] is the platform's
    [errno.EAGAIN] (Linux); [EHOSTUNREACH] is one of the errors a
    transport [send] raises for good. *)
Definition zmq_NOBLOCK : Z := 1.
Definition zmq_EAGAIN : Z := 11.
Definition EHOSTUNREACH : Z := 113.

Definition again : outcome := Fails (ZMQError zmq_EAGAIN).

(** A transport that gives the listed answers and would-blocks ever
    after. *)
Definition answers (l : list outcome) (n : nat) : outcome := nth n l again.

Definition zrun (so ro : nat -> outcome) : list event -> world -> world :=
  run zmq_NOBLOCK zmq_EAGAIN so ro.

(** Three sends, the first finding the socket unwritable. *)
Definition three_sends : list event :=
  [CallSend (PyBytes [x01]) 0 true false;
   CallSend (PyBytes [x02]) zmq_NOBLOCK true false;
   CallSend (PyBytes [x03]) zmq_NOBLOCK true false].

Definition entry1 : entry := Entry 0 [x01] 1 true false.
Definition entry2 : entry := Entry 1 [x02] 1 true false.
Definition entry3 : entry := Entry 2 [x03] 1 true false.

(** The transport takes two of the three. *)
Definition takes_two : nat -> outcome :=
  answers [again; Done PyNone; Done PyNone; again].

(** The transport takes the first message and
    refuses the second for good. *)
Definition refuses_second : nat -> outcome :=
  answers [again; Done PyNone; Fails (ZMQError EHOSTUNREACH)].

(** A payload for the receive path. *)
Definition payload : pyobj := PyBytes [x68; x69].

(** The transport would-blocks twice, then delivers. *)
Definition delivers_third : nat -> outcome := answers [again; again; Done payload].

(** The transport would-blocks once, then delivers. *)
Definition delivers_second : nat -> outcome := answers [again; Done payload].

(** A receive left waiting: the transport would-blocks on both of its
    first two attempts, and the reader is armed for future 0. *)
Definition waiting_recv : world :=
  zrun (answers []) (answers []) [CallRecv 0 true false] init.

Definition waiting_cb : recv_cb := RecvCb 0 1 true false.

(** ** Predicates of the further properties *)

(** The part of the world the read path owns, and how any step of the
    write path leaves it. *)
Definition read_frame (w w' : world) : Prop :=
  reader w' = reader w /\ recvd w' = recvd w /\
  read_registrations (loop_calls w') = read_registrations (loop_calls w).

(** Events of the write path, and events of the read path. *)
Definition send_side (ev : event) : bool :=
  match ev with
  | CallSend _ _ _ _ | WriteReady => true
  | _ => false
  end.

Definition recv_side (ev : event) : bool :=
  match ev with
  | CallRecv _ _ _ | ReadReady => true
  | _ => false
  end.

(** A future nobody has settled: pending, or cancelled by its holder. *)
Definition unsettled (w : world) (fut : nat) : Prop :=
  futures w !! fut = Some Pending \/ futures w !! fut = Some Cancelled.

(** Every call of the transport's [recv] made so far, and the one the
    registered reader will make, carries the no-wait flag. *)
Definition nowait_reads (NOBLOCK : Z) (w : world) : Prop :=
  Forall (fun c => has_noblock NOBLOCK (rc_flags c) = true) (recvd w) /\
  (forall cb, reader w = Some cb -> has_noblock NOBLOCK (cb_flags cb) = true).

(** [answered_gone so log q]: an entry whose call the transport answered
    with anything but a would-block is older than everything queued.
    [answered_once so log]: such a call is older than every call made
    after it.  The [i]-th call of the log was answered by [so i]. *)
Definition answered_gone (EAGAIN : Z) (so : nat -> outcome)
    (log q : list entry) : Prop :=
  forall i a, log !! i = Some a -> would_block EAGAIN (so i) = false ->
              Forall (fun e => e_fut a < e_fut e) q.

Definition answered_once (EAGAIN : Z) (so : nat -> outcome)
    (log : list entry) : Prop :=
  forall i j a b, log !! i = Some a -> log !! j = Some b -> i < j ->
                  would_block EAGAIN (so i) = false -> e_fut a < e_fut b.

Definition once_inv (EAGAIN : Z) (so : nat -> outcome) (w : world) : Prop :=
  fifo_inv w /\
  answered_gone EAGAIN so (sent w) (_buffer w) /\
  answered_once EAGAIN so (sent w).

(** The futures of the queued entries are unsettled, and the future the
    registered reader serves is an allocated one that no queued entry
    shares. *)
Definition queue_unsettled (w : world) : Prop :=
  (forall e, In e (_buffer w) -> unsettled w (e_fut e)) /\
  (forall cb, reader w = Some cb ->
     cb_fut cb < length (futures w) /\
     ~ In (cb_fut cb) (map e_fut (_buffer w))).

(** [sent_by evs a]: entry [a] comes from a [send] call of [evs]: the
    payload, [copy] and [track] are the caller's, the payload is not
    empty, and the flags are the caller's, with or without the no-wait
    flag forced in. *)
Definition sent_by (NOBLOCK : Z) (evs : list event) (a : entry) : Prop :=
  e_data a <> [] /\
  exists flags,
    In (CallSend (PyBytes (e_data a)) flags (e_copy a) (e_track a)) evs /\
    (e_flags a = flags \/ e_flags a = Z.lor flags NOBLOCK).

(** [answers_only so ro w]: a finished future holds an answer of the
    transport: the answer to a [send] call made for that very future, or
    the answer to a [recv] call. *)
Definition answers_only (so ro : nat -> outcome) (w : world) : Prop :=
  forall f o, futures w !! f = Some (Finished o) ->
    (exists i a, sent w !! i = Some a /\ e_fut a = f /\ so i = o) \/
    (exists j, j < length (recvd w) /\ ro j = o).

(** ** Transports and states of the runs used for the further properties *)

(** The transport takes everything after a first would-block. *)
Definition takes_all : nat -> outcome :=
  answers [again; Done PyNone; Done PyNone; Done PyNone].

(** The transport would-blocks twice on the first message, then takes
    everything. *)
Definition retried_then_taken : nat -> outcome :=
  answers [again; again; Done PyNone; Done PyNone; Done PyNone].

(** A receive fails for good at the third attempt. *)
Definition fails_third : nat -> outcome :=
  answers [again; again; Fails (ZMQError EHOSTUNREACH)].

(** A receive is answered at the fifth attempt. *)
Definition delivers_fifth : nat -> outcome :=
  answers [again; again; again; again; Done payload].

(** Three sends queued behind a transport that would-blocks. *)
Definition three_queued : world :=
  zrun (answers []) (answers []) three_sends init.


(** Event lists of those runs. *)
Definition sends_then_two_firings : list event :=
  three_sends ++ [WriteReady; WriteReady].

Definition sends_then_cancel : list event := three_sends ++ [CancelFuture 1].

Definition sends_then_cancel_first : list event :=
  three_sends ++ [CancelFuture 0].

Definition sends_then_firing : list event := three_sends ++ [WriteReady].

Definition one_send : list event := [CallSend (PyBytes [x01]) 0 true false].

(** * Properties *)

(** ** Futures: what a settle does *)

Lemma settle_cases (fut : nat) (r : outcome) (w : world) :
  (futures w !! fut = Some Pending /\
   settle fut r w = (Ret tt, set_futures (<[fut := Finished r]> (futures w)) w))
  \/ (futures w !! fut <> Some Pending /\
      settle fut r w = (Raise InvalidStateError, w)).
Proof.
  unfold settle.
  destruct (futures w !! fut) as [[| |o]|] eqn:E; auto; right; split; congruence.
Qed.


Lemma write_frame_refl (w : world) : write_frame w w.
Proof. unfold write_frame; auto. Qed.

Lemma write_frame_trans (w1 w2 w3 : world) :
  write_frame w1 w2 -> write_frame w2 w3 -> write_frame w1 w3.
Proof.
  unfold write_frame; intros (A & B & C & D) (A' & B' & C' & D').
  repeat split; try congruence; lia.
Qed.

Lemma settle_write_frame (fut : nat) (r : outcome) (w : world) :
  write_frame w (snd (settle fut r w)).
Proof.
  destruct (settle_cases fut r w) as [[_ ->] | [_ ->]]; simpl.
  - unfold write_frame; simpl. rewrite length_insert. auto.
  - apply write_frame_refl.
Qed.

Lemma cancel_write_frame (fut : nat) (w : world) : write_frame w (cancel fut w).
Proof.
  unfold cancel.
  destruct (futures w !! fut) as [[| |o]|]; try apply write_frame_refl.
  unfold write_frame; simpl. rewrite length_insert. auto.
Qed.

Section AdapterProperties.

Variable NOBLOCK : Z.
Variable EAGAIN : Z.
Variable send_oracle : nat -> outcome.
Variable recv_oracle : nat -> outcome.

Set Default Proof Using "Type".

#[local] Abbreviation transport_send := (transport_send send_oracle).
#[local] Abbreviation transport_recv := (transport_recv recv_oracle).
#[local] Abbreviation has_noblock := (has_noblock NOBLOCK).
#[local] Abbreviation errno_ne_eagain := (errno_ne_eagain EAGAIN).
#[local] Abbreviation would_block := (would_block EAGAIN).
#[local] Abbreviation _recv := (_recv EAGAIN recv_oracle).
#[local] Abbreviation recv := (recv NOBLOCK EAGAIN recv_oracle).
#[local] Abbreviation send := (send NOBLOCK EAGAIN send_oracle).
#[local] Abbreviation _send_ready_loop := (_send_ready_loop EAGAIN send_oracle).
#[local] Abbreviation _send_ready := (_send_ready EAGAIN send_oracle).
#[local] Abbreviation fire_write := (fire_write EAGAIN send_oracle).
#[local] Abbreviation fire_read := (fire_read EAGAIN recv_oracle).
#[local] Abbreviation step := (step NOBLOCK EAGAIN send_oracle recv_oracle).
#[local] Abbreviation run := (run NOBLOCK EAGAIN send_oracle recv_oracle).

Lemma lookup_fresh_future (fs : list future) :
  (fs ++ [Pending]) !! length fs = Some Pending.
Proof. apply list_lookup_middle. reflexivity. Qed.

Lemma run_cons ev evs w : run (ev :: evs) w = run evs (step w ev).
Proof. reflexivity. Qed.

Lemma _recv_write_frame fut registered flags copy track w :
  write_frame w (snd (_recv fut registered flags copy track w)).
Proof.
  unfold _recv.
  set (w1 := if registered then remove_reader w else w).
  assert (F1 : write_frame w w1).
  { subst w1. destruct registered; unfold write_frame; simpl; auto. }
  destruct (cancelled fut w1); [exact F1|].
  unfold transport_recv.
  set (w2 := World _ _ _ _ _ _ _ _).
  assert (F2 : write_frame w w2).
  { eapply write_frame_trans; [exact F1|]. unfold write_frame; simpl; auto. }
  unfold set_exception, set_result.
  destruct (recv_oracle _) as [v | [errno | t | | o]];
    try (eapply write_frame_trans; [exact F2 | apply settle_write_frame]).
  destruct (errno_ne_eagain errno).
  - eapply write_frame_trans; [exact F2 | apply settle_write_frame].
  - simpl. eapply write_frame_trans; [exact F2|]. unfold write_frame; simpl; auto.
Qed.

Lemma recv_write_frame flags copy track w :
  write_frame w (snd (recv flags copy track w)).
Proof.
  unfold recv, transport_recv.
  destruct (has_noblock flags).
  - destruct (recv_oracle _); simpl; unfold write_frame; simpl; auto.
  - destruct (recv_oracle _) as [v | [errno | t | | o]]; simpl;
      try (unfold write_frame; simpl; auto; fail).
    destruct (errno_ne_eagain errno); simpl;
      [unfold write_frame; simpl; auto|].
    match goal with
    | |- context [_recv ?f ?r ?fl ?c ?t ?w0] =>
        pose proof (_recv_write_frame f r fl c t w0) as F;
        destruct (_recv f r fl c t w0) as [[u|e] w3]
    end; simpl in *;
      (eapply write_frame_trans; [|exact F]);
      unfold write_frame; simpl; rewrite length_app; simpl; repeat split; lia.
Qed.

(** ** The order of the pending-write queue *)


Lemma StronglySorted_snoc {A} (R : A -> A -> Prop) (l : list A) (x : A) :
  StronglySorted R l -> Forall (fun y => R y x) l ->
  StronglySorted R (l ++ [x]).
Proof.
  induction 1 as [|a l Hl IH Ha]; intros Hx; simpl.
  - repeat constructor.
  - inversion Hx; subst. constructor; [auto|].
    apply List.Forall_app; split; [assumption | constructor; auto].
Qed.

Lemma fifo_ok_mono q log n n' : n <= n' -> fifo_ok q log n -> fifo_ok q log n'.
Proof.
  intros Hn (A & B & C & D & E). repeat split; auto.
  - eapply List.Forall_impl; [|exact C]. simpl; intros; lia.
  - eapply List.Forall_impl; [|exact D]. simpl; intros; lia.
Qed.

(** The head has been attempted and is kept at the head. *)
Lemma fifo_ok_retry e q log n :
  fifo_ok (e :: q) log n -> fifo_ok (e :: q) (log ++ [e]) n.
Proof.
  intros (A & B & C & D & E). simpl in A.
  pose proof (StronglySorted_inv A) as [A1 A2].
  repeat split; auto.
  - rewrite map_app. apply StronglySorted_snoc; [assumption|].
    rewrite List.Forall_map. eapply List.Forall_impl; [|exact E].
    simpl; intros a Ha. inversion Ha; auto.
  - apply List.Forall_app; split; [assumption|].
    inversion C; subst. constructor; auto.
  - apply List.Forall_app; split; [assumption|].
    constructor; [|constructor].
    constructor; [lia|].
    rewrite List.Forall_map in A2.
    eapply List.Forall_impl; [|exact A2]. simpl; intros; lia.
Qed.

(** The head has been attempted and has left the queue. *)
Lemma fifo_ok_pop e q log n :
  fifo_ok (e :: q) log n -> fifo_ok q (log ++ [e]) n.
Proof.
  intros H. apply fifo_ok_retry in H. destruct H as (A & B & C & D & E).
  simpl in A. pose proof (StronglySorted_inv A) as [A1 A2].
  repeat split; auto.
  - inversion C; auto.
  - eapply List.Forall_impl; [|exact E]. simpl; intros a Ha. inversion Ha; auto.
Qed.

(** A new future's entry joins the tail. *)
Lemma fifo_ok_enqueue q log n d f c t :
  fifo_ok q log n -> fifo_ok (q ++ [Entry n d f c t]) log (S n).
Proof.
  intros (A & B & C & D & E). repeat split.
  - rewrite map_app. apply StronglySorted_snoc; [assumption|].
    rewrite List.Forall_map. exact C.
  - assumption.
  - apply List.Forall_app; split.
    + eapply List.Forall_impl; [|exact C]. simpl; intros; lia.
    + repeat constructor.
  - eapply List.Forall_impl; [|exact D]. simpl; intros; lia.
  - rewrite List.Forall_forall in D, E. apply List.Forall_forall. intros a Ha.
    apply List.Forall_app; split; [auto|].
    constructor; [|constructor]. simpl. specialize (D a Ha). simpl in D. lia.
Qed.

(** A new future's entry is attempted at once, the queue being empty. *)
Lemma fifo_ok_fast log n d f c t :
  fifo_ok [] log n -> fifo_ok [] (log ++ [Entry n d f c t]) (S n).
Proof.
  intros (A & B & C & D & E). repeat split.
  - constructor.
  - rewrite map_app. apply StronglySorted_snoc; [assumption|].
    rewrite List.Forall_map. eapply List.Forall_impl; [|exact D]. simpl; intros; lia.
  - constructor.
  - apply List.Forall_app; split.
    + eapply List.Forall_impl; [|exact D]. simpl; intros; lia.
    + repeat constructor.
  - apply List.Forall_forall. intros; constructor.
Qed.

Lemma fifo_inv_frame w w' : write_frame w w' -> fifo_inv w -> fifo_inv w'.
Proof.
  unfold fifo_inv. intros (A & B & C & D) H. rewrite A, B.
  eapply fifo_ok_mono; eauto.
Qed.

Lemma fifo_inv_settle fut r w : fifo_inv w -> fifo_inv (snd (settle fut r w)).
Proof. apply fifo_inv_frame, settle_write_frame. Qed.

Lemma _send_ready_loop_fifo q w :
  fifo_ok q (sent w) (length (futures w)) ->
  fifo_inv (snd (_send_ready_loop q w)).
Proof.
  revert w. induction q as [|e q IH]; intros w H; simpl.
  - exact H.
  - unfold set_result, set_exception.
    destruct (send_oracle (length (sent w))) as [r | [errno | t | | o]].
    + set (w2 := World _ _ _ _ _ _ _ _).
      assert (H2 : fifo_inv w2) by (apply fifo_ok_pop; exact H).
      destruct (settle_cases (e_fut e) (Done r) w2) as [[_ ->] | [_ ->]].
      * apply IH. simpl. rewrite length_insert. apply fifo_ok_pop; exact H.
      * apply fifo_inv_settle; exact H2.
    + destruct (errno_ne_eagain errno).
      * apply fifo_inv_settle. apply fifo_ok_pop; exact H.
      * simpl. apply fifo_ok_retry; exact H.
    + apply fifo_inv_settle. apply fifo_ok_pop; exact H.
    + apply fifo_inv_settle. apply fifo_ok_pop; exact H.
    + apply fifo_inv_settle. apply fifo_ok_pop; exact H.
Qed.

Ltac fifo_fresh H Eq :=
  unfold fifo_inv; simpl; rewrite ?Eq, length_app, Nat.add_comm; simpl;
  apply fifo_ok_fast; exact H.

Ltac fifo_settled H Eq :=
  match goal with
  | |- context [settle ?f ?r ?w0] =>
      let Hs := fresh "Hs" in
      pose proof (fifo_inv_settle f r w0) as Hs;
      destruct (settle f r w0) as [[?|?] ?]; simpl in *; apply Hs;
      fifo_fresh H Eq
  end.

Lemma send_fifo data flags copy track w :
  fifo_inv w -> fifo_inv (snd (send data flags copy track w)).
Proof.
  intros H. unfold send.
  destruct data as [| z | s | b | n]; try exact H.
  destruct b as [|b0 b]; [exact H|].
  simpl. unfold fifo_inv in H.
  destruct (_buffer w) as [|e0 q0] eqn:Eq.
  - unfold set_result, set_exception.
    destruct (has_noblock flags).
    + destruct (send_oracle (length (sent w))) as [r | x].
      * fifo_settled H Eq.
      * fifo_fresh H Eq.
    + destruct (send_oracle (length (sent w))) as [r | [errno | t | | o]].
      * fifo_settled H Eq.
      * destruct (errno_ne_eagain errno).
        -- fifo_settled H Eq.
        -- unfold fifo_inv; simpl. rewrite ?Eq, length_app, Nat.add_comm. simpl.
           apply (fifo_ok_retry _ []).
           apply (fifo_ok_enqueue [] (sent w)); exact H.
      * fifo_fresh H Eq.
      * fifo_fresh H Eq.
      * fifo_fresh H Eq.
  - unfold fifo_inv; simpl. rewrite ?Eq, length_app, Nat.add_comm. simpl.
    apply (fifo_ok_enqueue (e0 :: q0)); exact H.
Qed.

Lemma step_fifo w ev : fifo_inv w -> fifo_inv (step w ev).
Proof.
  intros H. destruct ev as [d f c t | f c t | | | fut |]; simpl.
  - apply send_fifo; exact H.
  - eapply fifo_inv_frame; [apply recv_write_frame | exact H].
  - unfold fire_write. destruct (writer w); [|exact H].
    apply _send_ready_loop_fifo; exact H.
  - unfold fire_read. destruct (reader w) as [cb|]; [|exact H].
    eapply fifo_inv_frame; [apply _recv_write_frame | exact H].
  - eapply fifo_inv_frame; [apply cancel_write_frame | exact H].
  - exact H.
Qed.

Lemma run_fifo evs w : fifo_inv w -> fifo_inv (run evs w).
Proof.
  revert w. induction evs as [|ev evs IH]; intros w H; simpl; [exact H|].
  apply IH, step_fifo, H.
Qed.

Lemma init_fifo : fifo_inv init.
Proof. repeat split; constructor. Qed.

(** ** The shape of one drain *)


Lemma settle_fields fut r w :
  let w' := snd (settle fut r w) in
  _buffer w' = _buffer w /\ sent w' = sent w /\ writer w' = writer w /\
  reader w' = reader w /\ loop_calls w' = loop_calls w /\
  recvd w' = recvd w /\ closed w' = closed w /\
  length (futures w') = length (futures w).
Proof.
  destruct (settle_cases fut r w) as [[_ ->] | [_ ->]]; simpl;
    rewrite ?length_insert; repeat split; reflexivity.
Qed.

(** One firing attempts a prefix of the queue, in queue order, and leaves
    a suffix of it: the one that starts at the last attempted entry when
    that attempt would-blocked, and just after it otherwise. *)
Lemma _send_ready_loop_shape q w :
  let w' := snd (_send_ready_loop q w) in
  exists k,
    k <= length q /\
    sent w' = sent w ++ take k q /\
    _buffer w' =
      drop (if (0 <? k) && would_block (send_oracle (length (sent w') - 1))
            then k - 1 else k) q.
Proof.
  revert w. induction q as [|e q IH]; intros w; simpl.
  - exists 0. simpl. rewrite app_nil_r. auto.
  - unfold set_result, set_exception.
    set (w2 := World q (futures w) (reader w) (writer w) (loop_calls w)
                     (sent w ++ [e]) (recvd w) (closed w)).
    assert (Hlen : length (sent w ++ [e]) - 1 = length (sent w))
      by (rewrite length_app; simpl; lia).
    assert (Stop : forall fut r, would_block (send_oracle (length (sent w))) = false ->
      let w' := snd (settle fut r w2) in
      exists k, k <= S (length q) /\ sent w' = sent w ++ take k (e :: q) /\
        _buffer w' = drop (if (0 <? k) && would_block (send_oracle (length (sent w') - 1))
                           then k - 1 else k) (e :: q)).
    { intros fut r Hwb. exists 1.
      destruct (settle_fields fut r w2) as (Hb & Hs & _). simpl in *.
      rewrite Hs, Hb, Hlen, Hwb. simpl. rewrite drop_0. repeat split; auto; lia. }
    destruct (send_oracle (length (sent w))) as [r | [errno | t | | o]] eqn:Eo;
      try (apply Stop; reflexivity).
    + destruct (settle_cases (e_fut e) (Done r) w2) as [[_ ->] | [_ ->]].
      * specialize (IH (set_futures (<[e_fut e:=Finished (Done r)]> (futures w2)) w2)).
        cbv zeta in IH.
        set (w' := snd (_send_ready_loop q _)) in *.
        destruct IH as (k & Hk & Hs & Hb).
        change (sent (set_futures _ w2)) with (sent w ++ [e]) in Hs.
        exists (S k). split; [lia|]. split.
        { rewrite Hs, <- app_assoc. reflexivity. }
        rewrite Hb. destruct k as [|k].
        -- simpl in Hs. rewrite app_nil_r in Hs. rewrite Hs, Hlen, Eo.
           simpl. rewrite drop_0. reflexivity.
        -- change (0 <? S k) with true. change (0 <? S (S k)) with true.
           simpl andb. destruct (would_block _); simpl;
             rewrite ?Nat.sub_0_r; reflexivity.
      * apply Stop; reflexivity.
    + destruct (errno_ne_eagain errno) eqn:En.
      * apply Stop. simpl. rewrite En. reflexivity.
      * exists 1. simpl. rewrite Hlen, Eo. simpl. rewrite En. simpl.
        rewrite ?drop_0. repeat split; auto; lia.
Qed.

(** C1.  Over every run of a socket (sends, receives, readiness firings,
    cancellations, in any order, against any transport): the transport's
    [send] calls are in the order of the [send] calls they serve, a retry
    repeating its entry; the queue is in that order too; no queued entry
    is older than an attempted one, so a later entry is never attempted
    while an earlier one waits; and a firing attempts a prefix of the
    queue and leaves a suffix of it, which starts with the would-blocked
    entry when the firing ended on a would-block: that entry is back at
    the head. *)
Theorem send_queue_fifo (evs : list event) :
  let w := run evs init in
  StronglySorted le (map e_fut (sent w)) /\
  StronglySorted lt (map e_fut (_buffer w)) /\
  (forall a e, In a (sent w) -> In e (_buffer w) -> e_fut a <= e_fut e) /\
  (forall x, In x (sent w ++ _buffer w) -> e_fut x < length (futures w)) /\
  (let w' := snd (_send_ready w) in
   exists k,
     k <= length (_buffer w) /\
     sent w' = sent w ++ take k (_buffer w) /\
     _buffer w' =
       drop (if (0 <? k) && would_block (send_oracle (length (sent w') - 1))
             then k - 1 else k) (_buffer w)).
Proof.
  intros w.
  destruct (run_fifo evs init init_fifo) as (A & B & C & D & E).
  fold w in A, B, C, D, E.
  split; [exact B|]. split; [exact A|]. split; [|split].
  - intros a e Ha He.
    rewrite List.Forall_forall in E. specialize (E a Ha).
    rewrite List.Forall_forall in E. exact (E e He).
  - intros x Hx. apply in_app_or in Hx as [Hx | Hx].
    + rewrite List.Forall_forall in D. exact (D x Hx).
    + rewrite List.Forall_forall in C. exact (C x Hx).
  - apply _send_ready_loop_shape.
Qed.

(** ** A drain over entries the transport accepts *)

(** The drain of [pre ++ q], when the futures of [pre] are pending and
    distinct and the transport accepts each entry of [pre], reaches the
    drain of [q] with every future of [pre] fulfilled and nothing else
    touched. *)
Lemma _send_ready_loop_accepts pre : forall q w,
  NoDup (map e_fut pre) ->
  (forall e, In e pre -> futures w !! e_fut e = Some Pending) ->
  (forall i, i < length pre ->
     exists r, send_oracle (length (sent w) + i) = Done r) ->
  exists wm,
    _send_ready_loop (pre ++ q) w = _send_ready_loop q wm /\
    sent wm = sent w ++ pre /\
    writer wm = writer w /\ reader wm = reader w /\
    loop_calls wm = loop_calls w /\ recvd wm = recvd w /\
    closed wm = closed w /\
    length (futures wm) = length (futures w) /\
    (forall fut, ~ In fut (map e_fut pre) ->
       futures wm !! fut = futures w !! fut) /\
    (forall i e, pre !! i = Some e ->
       futures wm !! e_fut e
       = Some (Finished (send_oracle (length (sent w) + i)))).
Proof.
  induction pre as [|e pre IH]; intros q w Hnd Hpend Hacc.
  - exists w. simpl. rewrite app_nil_r. repeat split; auto.
    intros i e He. discriminate.
  - simpl in Hnd. apply NoDup_cons in Hnd as [Hnotin Hnd].
    assert (Hnotin' : ~ In (e_fut e) (map e_fut pre))
      by (rewrite <- list_elem_of_In; exact Hnotin).
    destruct (Hacc 0 ltac:(simpl; lia)) as [r Hr].
    rewrite Nat.add_0_r in Hr.
    pose proof (Hpend e (or_introl eq_refl)) as He.
    simpl. rewrite Hr. unfold set_result, settle. simpl. rewrite He.
    set (w3 := set_futures _ _).
    destruct (IH q w3) as (wm & Hloop & Hsent & Hw & Hrd & Hlc & Hrv & Hcl & Hlen & Hother & Hpre).
    + exact Hnd.
    + intros e' He'. subst w3. simpl.
      rewrite list_lookup_insert_ne.
      * apply Hpend. right; exact He'.
      * intros Heq. apply Hnotin'. rewrite Heq. apply in_map; exact He'.
    + intros i Hi. subst w3. simpl. rewrite length_app. simpl.
      destruct (Hacc (S i) ltac:(simpl; lia)) as [r' Hr'].
      exists r'. rewrite <- Hr'. f_equal. lia.
    + exists wm. subst w3. simpl in *.
      rewrite length_insert in Hlen.
      split; [exact Hloop|].
      split; [rewrite Hsent, <- app_assoc; reflexivity|].
      do 6 (split; [assumption|]).
      split.
      * intros fut Hfut.
        rewrite Hother by (intros Hin; apply Hfut; right; exact Hin).
        apply list_lookup_insert_ne. intros Heq; apply Hfut; left; exact Heq.
      * intros [|i] e' He'; simpl in He'.
        -- inversion He'; subst e'. rewrite Hother by exact Hnotin'.
           rewrite Nat.add_0_r, Hr.
           apply list_lookup_insert_eq. eapply lookup_lt_Some; exact He.
        -- rewrite (Hpre i e' He'). rewrite length_app. simpl.
           do 3 f_equal. lia.
Qed.

(** A settle never changes a future that is already finished. *)
Lemma settle_keeps_finished fut r w fut' o :
  futures w !! fut' = Some (Finished o) ->
  futures (snd (settle fut r w)) !! fut' = Some (Finished o).
Proof.
  intros H. destruct (settle_cases fut r w) as [[Hp ->] | [_ ->]]; simpl; auto.
  rewrite list_lookup_insert_ne; [exact H|].
  intros ->. congruence.
Qed.

(** The first thing a drain does is to attempt the head of the queue. *)
Lemma _send_ready_attempts_head e q w :
  _buffer w = e :: q ->
  exists l, sent (snd (_send_ready w)) = sent w ++ e :: l.
Proof.
  intros Hb. unfold _send_ready. rewrite Hb. simpl.
  unfold set_result, set_exception.
  set (w2 := World q _ _ _ _ _ _ _).
  assert (Stop : forall fut r,
             exists l, sent (snd (settle fut r w2)) = sent w ++ e :: l).
  { intros fut r. exists []. destruct (settle_fields fut r w2) as (_ & -> & _).
    reflexivity. }
  destruct (send_oracle (length (sent w))) as [r | [errno | t | | o]];
    try apply Stop.
  - destruct (settle_cases (e_fut e) (Done r) w2) as [[_ ->] | [_ ->]];
      [|apply Stop].
    match goal with
    | |- context [_send_ready_loop q ?w0] =>
        destruct (_send_ready_loop_shape q w0) as (k & _ & Hs & _)
    end.
    exists (take k q). rewrite Hs. simpl. rewrite <- app_assoc. reflexivity.
  - destruct (errno_ne_eagain errno); [apply Stop|].
    exists []. reflexivity.
Qed.

(** What the drain does with an entry the transport refuses for good:
    in every such branch it is [fut.set_exception(exc)] and [return]. *)
Lemma _send_ready_loop_refused e q w exc :
  send_oracle (length (sent w)) = Fails exc ->
  would_block (Fails exc) = false ->
  _send_ready_loop (e :: q) w
  = settle (e_fut e) (Fails exc)
      (World q (futures w) (reader w) (writer w) (loop_calls w)
             (sent w ++ [e]) (recvd w) (closed w)).
Proof.
  intros Ho Hwb. simpl. rewrite Ho. unfold set_exception.
  destruct exc as [errno | t | | o]; try reflexivity.
  simpl in Hwb. apply negb_false_iff in Hwb. rewrite Hwb. reflexivity.
Qed.

(** X15.  One firing of write readiness, on a queue [pre ++ rest] whose
    first entries [pre] have pending, distinct futures and are accepted
    by the transport, and whose next entry (if any) is refused, by a
    would-block or by an error: every entry of [pre] is fulfilled in
    this firing with what the transport returned for it; the transport
    has been called for [pre] and for the refused entry, in that order,
    and for nothing after it; if the queue ran empty the writer is
    removed, otherwise the writer is left as it was (armed), and the
    queue is [rest], with the would-blocked entry still at its head, or
    [rest] without the entry that failed. *)
Theorem drain_fulfils_until_blocked (w : world) (pre rest : list entry) :
  _buffer w = pre ++ rest ->
  NoDup (map e_fut pre) ->
  (forall e, In e pre -> futures w !! e_fut e = Some Pending) ->
  (forall i, i < length pre ->
     exists r, send_oracle (length (sent w) + i) = Done r) ->
  (rest = [] \/
   exists exc, send_oracle (length (sent w) + length pre) = Fails exc) ->
  let w' := snd (_send_ready w) in
  (forall i e, pre !! i = Some e ->
     futures w' !! e_fut e
     = Some (Finished (send_oracle (length (sent w) + i)))) /\
  sent w' = sent w ++ pre ++ take 1 rest /\
  match rest with
  | [] => _buffer w' = [] /\ writer w' = false
  | e :: rest' =>
      writer w' = writer w /\
      _buffer w' =
        if would_block (send_oracle (length (sent w) + length pre))
        then e :: rest' else rest'
  end.
Proof.
  intros Hb Hnd Hpend Hacc Hstop. unfold _send_ready. rewrite Hb.
  destruct (_send_ready_loop_accepts pre rest w Hnd Hpend Hacc)
    as (wm & -> & Hsent & Hw & _ & _ & _ & _ & _ & _ & Hpre).
  assert (Hidx : length (sent wm) = length (sent w) + length pre)
    by (rewrite Hsent, length_app; reflexivity).
  destruct rest as [|e rest'].
  - simpl. rewrite app_nil_r. auto.
  - destruct Hstop as [Hnil | [exc Hexc]]; [discriminate|].
    rewrite Hexc. rewrite <- Hidx in Hexc.
    destruct (would_block (Fails exc)) eqn:Hwb.
    + destruct exc as [errno | t | | o]; try discriminate.
      simpl in Hwb. apply negb_true_iff in Hwb.
      simpl. rewrite Hexc, Hwb. simpl. rewrite Hsent, <- app_assoc.
      repeat split; auto.
    + rewrite (_send_ready_loop_refused e rest' wm exc Hexc Hwb).
      set (w2 := World rest' _ _ _ _ _ _ _).
      destruct (settle_fields (e_fut e) (Fails exc) w2)
        as (Hb' & Hs' & Hw' & _).
      cbv zeta. rewrite Hb', Hs', Hw'. subst w2; simpl.
      rewrite Hsent, <- app_assoc. repeat split; auto.
      intros i x Hx. apply settle_keeps_finished. simpl. apply Hpre, Hx.
Qed.

(** X16.  One firing in which the transport accepts the entries of [pre]
    and refuses the next one, [e], with an error that is not a
    would-block, all their futures being pending and the futures of
    the queue distinct: the firing returns normally; the error is the
    exception of [e]'s future; the queue is what followed [e], not
    attempted in this firing; each of its futures, and every future
    other than those of [pre] and [e], is as it was; the writer and the
    reader are as they were; and the next firing starts by attempting
    the entry that followed [e]. *)
Theorem drain_error_is_local (w : world) (pre rest : list entry)
    (e : entry) (exc : exn) :
  _buffer w = pre ++ e :: rest ->
  NoDup (map e_fut (_buffer w)) ->
  (forall x, In x (pre ++ [e]) -> futures w !! e_fut x = Some Pending) ->
  (forall i, i < length pre ->
     exists r, send_oracle (length (sent w) + i) = Done r) ->
  send_oracle (length (sent w) + length pre) = Fails exc ->
  would_block (Fails exc) = false ->
  exists w',
    _send_ready w = (Ret tt, w') /\
    futures w' !! e_fut e = Some (Finished (Fails exc)) /\
    _buffer w' = rest /\
    sent w' = sent w ++ pre ++ [e] /\
    writer w' = writer w /\ reader w' = reader w /\ closed w' = closed w /\
    (forall x, In x rest -> futures w' !! e_fut x = futures w !! e_fut x) /\
    (forall fut, ~ In fut (map e_fut (pre ++ [e])) ->
       futures w' !! fut = futures w !! fut) /\
    (forall x rest', rest = x :: rest' ->
       exists l, sent (snd (_send_ready w')) = sent w' ++ x :: l).
Proof.
  intros Hb Hnd Hpend Hacc Hexc Hwb.
  rewrite Hb, map_app in Hnd. simpl in Hnd.
  apply NoDup_app in Hnd as (Hnd1 & Hdisj & Hnd2).
  apply NoDup_cons in Hnd2 as [Hnotin Hnd2].
  assert (He_pre : ~ In (e_fut e) (map e_fut pre)).
  { intros Hin. apply (Hdisj (e_fut e)).
    - apply list_elem_of_In; exact Hin.
    - left. }
  destruct (_send_ready_loop_accepts pre (e :: rest) w Hnd1) as
    (wm & Hloop & Hsent & Hw & Hrd & _ & _ & Hcl & _ & Hother & _).
  { intros x Hx. apply Hpend. apply in_or_app; left; exact Hx. }
  { exact Hacc. }
  assert (Hidx : length (sent wm) = length (sent w) + length pre)
    by (rewrite Hsent, length_app; reflexivity).
  rewrite <- Hidx in Hexc.
  unfold _send_ready. rewrite Hb, Hloop.
  rewrite (_send_ready_loop_refused e rest wm exc Hexc Hwb).
  assert (Hpe : futures wm !! e_fut e = Some Pending).
  { rewrite Hother by exact He_pre. apply Hpend.
    apply in_or_app; right; left; reflexivity. }
  unfold settle. simpl. rewrite Hpe.
  set (w' := set_futures _ _).
  exists w'. split; [reflexivity|].
  assert (Hfar : forall fut, fut <> e_fut e -> ~ In fut (map e_fut pre) ->
            futures w' !! fut = futures w !! fut).
  { intros fut Hne Hnin. subst w'; simpl.
    rewrite list_lookup_insert_ne by congruence.
    apply Hother, Hnin. }
  split.
  { subst w'; simpl. apply list_lookup_insert_eq.
    eapply lookup_lt_Some; exact Hpe. }
  split; [reflexivity|].
  split; [subst w'; simpl; rewrite Hsent, <- app_assoc; reflexivity|].
  do 3 (split; [assumption|]).
  split; [|split].
  - intros x Hx. apply Hfar.
    + intros Heq. apply Hnotin. rewrite <- Heq.
      apply list_elem_of_In, in_map; exact Hx.
    + intros Hin. apply (Hdisj (e_fut x)).
      * apply list_elem_of_In; exact Hin.
      * right. apply list_elem_of_In, in_map; exact Hx.
  - intros fut Hfut. rewrite map_app in Hfut. simpl in Hfut.
    apply Hfar.
    + intros Heq. apply Hfut, in_or_app. right; left; congruence.
    + intros Hin. apply Hfut, in_or_app. left; exact Hin.
  - intros x rest' ->. apply (_send_ready_attempts_head x rest'). reflexivity.
Qed.

(** ** The writer while entries are queued *)

Lemma writer_covers_frame w w' :
  write_frame w w' -> writer_covers w -> writer_covers w'.
Proof.
  unfold writer_covers. intros (A & _ & C & _) H. rewrite A, C. exact H.
Qed.

Lemma _send_ready_loop_writer q : forall w,
  writer w = true -> writer_covers (snd (_send_ready_loop q w)).
Proof.
  induction q as [|e q IH]; intros w Hw; simpl.
  - intros H. exfalso. apply H. reflexivity.
  - unfold set_result, set_exception.
    set (w2 := World q _ _ _ _ _ _ _).
    assert (Stop : forall fut r, writer_covers (snd (settle fut r w2))).
    { intros fut r _. destruct (settle_fields fut r w2) as (_ & _ & -> & _).
      exact Hw. }
    destruct (send_oracle (length (sent w))) as [r | [errno | t | | o]];
      try apply Stop.
    + destruct (settle_cases (e_fut e) (Done r) w2) as [[_ ->] | [_ ->]];
        [apply IH; exact Hw | apply Stop].
    + destruct (errno_ne_eagain errno); [apply Stop|].
      intros _. exact Hw.
Qed.

Lemma send_writer data flags copy track w :
  writer_covers w -> writer_covers (snd (send data flags copy track w)).
Proof.
  intros H. unfold send.
  destruct data as [| z | s | b | n]; try exact H.
  destruct b as [|b0 b]; [exact H|].
  cbn [Future fst snd].
  change (_buffer (set_futures (futures w ++ [Pending]) w)) with (_buffer w).
  destruct (_buffer w) as [|e0 q0] eqn:Eq.
  - unfold transport_send, set_result, set_exception, settle. simpl.
    rewrite lookup_fresh_future.
    assert (Empty : forall w', _buffer w' = [] -> writer_covers w').
    { intros w' E C. exfalso. apply C, E. }
    destruct (has_noblock flags);
      destruct (send_oracle (length (sent w))) as [r | [errno | t | | o]];
      simpl; try (apply Empty; simpl; exact Eq).
    destruct (errno_ne_eagain errno); simpl; [apply Empty; simpl; exact Eq|].
    intros _. reflexivity.
  - simpl. intros _. apply H. rewrite Eq. discriminate.
Qed.

(** The half of the writer's invariant that every run keeps: while an
    entry is queued, the writer is registered.  (The other half, no
    writer on an empty queue, does not hold: a firing that ends on an
    error returns before [remove_writer].) *)
Lemma run_writer_covers evs :
  writer_covers (run evs init).
Proof.
  assert (G : forall w, writer_covers w -> writer_covers (run evs w)).
  { induction evs as [|ev evs IH]; intros w H; [exact H|].
    rewrite run_cons. apply IH.
    destruct ev as [d f c t | f c t | | | fut |]; simpl.
    - apply send_writer; exact H.
    - eapply writer_covers_frame; [apply recv_write_frame | exact H].
    - unfold fire_write. destruct (writer w) eqn:Hw; [|exact H].
      apply _send_ready_loop_writer; exact Hw.
    - unfold fire_read. destruct (reader w) as [cb|]; [|exact H].
      eapply writer_covers_frame; [apply _recv_write_frame | exact H].
    - eapply writer_covers_frame; [apply cancel_write_frame | exact H].
    - exact H. }
  apply G. intros C. exfalso. apply C. reflexivity.
Qed.

(** ** The receive path *)

Lemma would_block_inv o :
  would_block o = true ->
  exists errno, o = Fails (ZMQError errno) /\ errno_ne_eagain errno = false.
Proof.
  destruct o as [v | [errno | t | | x]]; simpl; try discriminate.
  intros H. exists errno. split; [reflexivity|]. apply negb_true_iff, H.
Qed.


(** With no reader registered, read readiness has nothing to call. *)
Lemma run_read_idle m w :
  reader w = None -> run (replicate m ReadReady) w = w.
Proof.
  intros H. induction m as [|m IH]; [reflexivity|].
  cbn [replicate]. rewrite run_cons. simpl step. unfold fire_read.
  rewrite H. exact IH.
Qed.

Lemma run_app evs1 evs2 w : run (evs1 ++ evs2) w = run evs2 (run evs1 w).
Proof. unfold run. apply fold_left_app. Qed.


(** The registered callback, fired while the transport would-blocks [j]
    more times and then delivers: [j + 1] firings, each removing the
    reader and calling [recv] once, all but the last registering again. *)
Lemma read_firings j : forall w cb data,
  reader w = Some cb ->
  futures w !! cb_fut cb = Some Pending ->
  (forall i, i < j -> would_block (recv_oracle (length (recvd w) + i)) = true) ->
  recv_oracle (length (recvd w) + j) = Done data ->
  let w' := run (replicate (S j) ReadReady) w in
  loop_calls w' = loop_calls w ++
     RemoveReader :: concat (replicate j [AddReader cb; RemoveReader]) /\
  recvd w' = recvd w ++
     replicate (S j) (RecvCall (cb_flags cb) (cb_copy cb) (cb_track cb)) /\
  reader w' = None /\
  futures w' = <[cb_fut cb := Finished (Done data)]> (futures w).
Proof.
  induction j as [|j IH]; intros w cb data Hrd Hp Hwb Hdone.
  - rewrite Nat.add_0_r in Hdone.
    cbn [replicate]. rewrite run_cons. simpl. unfold fire_read. rewrite Hrd.
    unfold _recv, cancelled. simpl. rewrite Hp. simpl. rewrite Hdone.
    unfold set_result, settle. simpl. rewrite Hp. simpl. auto.
  - destruct (would_block_inv _ (Hwb 0 ltac:(lia))) as (errno & Ho & Hne).
    rewrite Nat.add_0_r in Ho.
    change (replicate (S (S j)) ReadReady)
      with (ReadReady :: replicate (S j) ReadReady).
    rewrite run_cons.
    set (w1 := step w ReadReady).
    assert (E1 : w1 = add_reader cb
              (World (_buffer w) (futures w) None (writer w)
                     (loop_calls w ++ [RemoveReader]) (sent w)
                     (recvd w ++ [RecvCall (cb_flags cb) (cb_copy cb) (cb_track cb)])
                     (closed w))).
    { subst w1. simpl. unfold fire_read. rewrite Hrd.
      unfold _recv, cancelled. simpl. rewrite Hp. simpl. rewrite Ho, Hne.
      destruct cb; reflexivity. }
    destruct (IH w1 cb data) as (Hl & Hr & Hrd' & Hf).
    + rewrite E1; reflexivity.
    + rewrite E1; exact Hp.
    + intros i Hi. rewrite E1; simpl. rewrite length_app; simpl.
      replace (length (recvd w) + 1 + i) with (length (recvd w) + S i) by lia.
      apply Hwb. lia.
    + rewrite E1; simpl. rewrite length_app; simpl.
      replace (length (recvd w) + 1 + j) with (length (recvd w) + S j) by lia.
      exact Hdone.
    + cbv zeta. rewrite Hl, Hr, Hrd', Hf. rewrite E1; simpl.
      rewrite <- !app_assoc. simpl. auto.
Qed.


(** [recv], first attempt delivers: the fast path. *)
Lemma recv_immediate flags copy track data w :
  has_noblock flags = false ->
  recv_oracle (length (recvd w)) = Done data ->
  recv flags copy track w
  = (Ret (Received data),
     World (_buffer w) (futures w) (reader w) (writer w) (loop_calls w)
           (sent w) (recvd w ++ [RecvCall (Z.lor flags NOBLOCK) copy track])
           (closed w)).
Proof.
  intros Hnb Ho. unfold recv, transport_recv. rewrite Hnb, Ho. reflexivity.
Qed.

(** [recv], first attempt would-blocks, the second (made by the direct
    call [self._recv(fut, False, ...)]) delivers. *)
Lemma recv_deferred_once flags copy track data w :
  has_noblock flags = false ->
  would_block (recv_oracle (length (recvd w))) = true ->
  recv_oracle (length (recvd w) + 1) = Done data ->
  recv flags copy track w
  = (Ret (Awaits (length (futures w))),
     World (_buffer w)
           (<[length (futures w) := Finished (Done data)]> (futures w ++ [Pending]))
           (reader w) (writer w) (loop_calls w) (sent w)
           (recvd w ++ [RecvCall (Z.lor flags NOBLOCK) copy track;
                        RecvCall (Z.lor flags NOBLOCK) copy track])
           (closed w)).
Proof.
  intros Hnb Hwb Ho.
  destruct (would_block_inv _ Hwb) as (errno & Ho0 & Hne).
  unfold recv, transport_recv. rewrite Hnb, Ho0, Hne. simpl.
  unfold _recv, cancelled. simpl. rewrite lookup_fresh_future. simpl.
  rewrite length_app. simpl. rewrite Ho.
  unfold set_result, settle. simpl. rewrite lookup_fresh_future. simpl.
  rewrite <- app_assoc. reflexivity.
Qed.

(** [recv], first and second attempts would-block: the reader is armed. *)
Lemma recv_deferred_armed flags copy track w :
  has_noblock flags = false ->
  would_block (recv_oracle (length (recvd w))) = true ->
  would_block (recv_oracle (length (recvd w) + 1)) = true ->
  let cb := RecvCb (length (futures w)) (Z.lor flags NOBLOCK) copy track in
  recv flags copy track w
  = (Ret (Awaits (length (futures w))),
     World (_buffer w) (futures w ++ [Pending]) (Some cb) (writer w)
           (loop_calls w ++ [AddReader cb]) (sent w)
           (recvd w ++ [RecvCall (Z.lor flags NOBLOCK) copy track;
                        RecvCall (Z.lor flags NOBLOCK) copy track])
           (closed w)).
Proof.
  intros Hnb Hwb0 Hwb1.
  destruct (would_block_inv _ Hwb0) as (errno0 & Ho0 & Hne0).
  destruct (would_block_inv _ Hwb1) as (errno1 & Ho1 & Hne1).
  unfold recv, transport_recv. rewrite Hnb, Ho0, Hne0. simpl.
  unfold _recv, cancelled. simpl. rewrite lookup_fresh_future. simpl.
  rewrite length_app. simpl. rewrite Ho1, Hne1. simpl.
  unfold add_reader. simpl. rewrite <- app_assoc. reflexivity.
Qed.

Lemma read_registrations_app l1 l2 :
  read_registrations (l1 ++ l2) = read_registrations l1 + read_registrations l2.
Proof. unfold read_registrations. rewrite List.filter_app, length_app. reflexivity. Qed.

Lemma read_registrations_rounds cb j :
  read_registrations (concat (replicate j [AddReader cb; RemoveReader])) = j.
Proof.
  induction j as [|j IH]; [reflexivity|].
  cbn [replicate concat]. rewrite read_registrations_app, IH. reflexivity.
Qed.

(** C4, as the code has it.  A [recv] without the no-wait flag, on a
    socket with no reader registered, whose transport would-blocks [k]
    times and then delivers, followed by the readiness firings it asks
    for (and any number more): the transport's [recv] is called exactly
    [k + 1] times, always with the no-wait flag forced in, and
    [add_reader] exactly [k - 1] times (none for [k = 0] and for
    [k = 1]: the second attempt is made at once, by the direct call of
    [_recv]); for [k = 0] the data is returned by the call itself, and
    for [k > 0] it is the result of the future the call awaits; no
    reader is left registered. *)
Theorem recv_attempts_and_registrations (k m : nat) (flags : Z)
    (copy track : bool) (data : pyobj) (w : world) :
  has_noblock flags = false ->
  reader w = None ->
  (forall i, i < k -> would_block (recv_oracle (length (recvd w) + i)) = true) ->
  recv_oracle (length (recvd w) + k) = Done data ->
  k - 1 <= m ->
  let w' := run (CallRecv flags copy track :: replicate m ReadReady) w in
  read_registrations (loop_calls w') = read_registrations (loop_calls w) + (k - 1) /\
  recvd w' = recvd w ++ replicate (S k) (RecvCall (Z.lor flags NOBLOCK) copy track) /\
  reader w' = None /\
  (k = 0 -> fst (recv flags copy track w) = Ret (Received data)) /\
  (0 < k ->
     fst (recv flags copy track w) = Ret (Awaits (length (futures w))) /\
     futures w' !! length (futures w) = Some (Finished (Done data))).
Proof.
  intros Hnb Hrd Hwb Hdone Hm. rewrite run_cons. simpl step.
  destruct k as [|[|j]].
  - rewrite Nat.add_0_r in Hdone.
    rewrite (recv_immediate _ _ _ _ _ Hnb Hdone). simpl fst; simpl snd.
    rewrite run_read_idle by exact Hrd. simpl.
    rewrite Nat.add_0_r. repeat split; auto; lia.
  - pose proof (Hwb 0 ltac:(lia)) as Hwb0. rewrite Nat.add_0_r in Hwb0.
    rewrite (recv_deferred_once _ _ _ _ _ Hnb Hwb0 Hdone). simpl fst; simpl snd.
    rewrite run_read_idle by exact Hrd. simpl.
    rewrite Nat.add_0_r. repeat split; auto; try discriminate.
    apply list_lookup_insert_eq. rewrite length_app; simpl; lia.
  - pose proof (Hwb 0 ltac:(lia)) as Hwb0. rewrite Nat.add_0_r in Hwb0.
    pose proof (Hwb 1 ltac:(lia)) as Hwb1.
    rewrite (recv_deferred_armed _ _ _ _ Hnb Hwb0 Hwb1). simpl fst; simpl snd.
    set (cb := RecvCb (length (futures w)) (Z.lor flags NOBLOCK) copy track).
    set (w3 := World _ _ _ _ _ _ _ _).
    replace m with (S j + (m - S j)) by lia.
    rewrite replicate_add, run_app.
    destruct (read_firings j w3 cb data) as (Hl & Hr & Hrd' & Hf).
    + reflexivity.
    + apply lookup_fresh_future.
    + intros i Hi. subst w3; simpl. rewrite length_app; simpl.
      replace (length (recvd w) + 2 + i) with (length (recvd w) + S (S i)) by lia.
      apply Hwb. lia.
    + subst w3; simpl. rewrite length_app; simpl.
      replace (length (recvd w) + 2 + j) with (length (recvd w) + S (S j)) by lia.
      exact Hdone.
    + rewrite run_read_idle by exact Hrd'.
      cbv zeta. rewrite Hl, Hr, Hrd', Hf. subst w3; simpl.
      repeat split; auto; try discriminate.
      * rewrite <- app_assoc. simpl.
        rewrite read_registrations_app.
        change (AddReader cb :: RemoveReader ::
                  concat (replicate j [AddReader cb; RemoveReader]))
          with (concat (replicate (S j) [AddReader cb; RemoveReader])).
        rewrite read_registrations_rounds. lia.
      * rewrite <- app_assoc. reflexivity.
      * apply list_lookup_insert_eq. rewrite length_app; simpl; lia.
Qed.

(** C5.  A receive waits on its future with the reader armed; the future
    is cancelled; read readiness then fires any number of times.  The
    future stays cancelled and the transport's [recv] is never called;
    the first firing removes the reader and returns at the
    [fut.cancelled()] test, so that later firings find nothing to call. *)
Theorem recv_cancel_skips_retry (w : world) (cb : recv_cb) (m : nat) :
  reader w = Some cb ->
  futures w !! cb_fut cb = Some Pending ->
  let w' := run (CancelFuture (cb_fut cb) :: replicate m ReadReady) w in
  futures w' = <[cb_fut cb := Cancelled]> (futures w) /\
  futures w' !! cb_fut cb = Some Cancelled /\
  recvd w' = recvd w /\
  (0 < m -> reader w' = None /\ loop_calls w' = loop_calls w ++ [RemoveReader]).
Proof.
  intros Hrd Hp. rewrite run_cons. simpl step.
  assert (Hc : cancel (cb_fut cb) w
               = set_futures (<[cb_fut cb := Cancelled]> (futures w)) w).
  { unfold cancel. rewrite Hp. reflexivity. }
  rewrite Hc. clear Hc.
  set (w1 := set_futures _ w).
  assert (Hl : futures w1 !! cb_fut cb = Some Cancelled).
  { subst w1; simpl. apply list_lookup_insert_eq.
    eapply lookup_lt_Some; exact Hp. }
  destruct m as [|m].
  - cbv zeta. simpl. repeat split; auto; lia.
  - cbn [replicate]. rewrite run_cons.
    assert (E : step w1 ReadReady = remove_reader w1).
    { simpl. unfold fire_read. subst w1; simpl. rewrite Hrd.
      unfold _recv, cancelled. simpl in *. rewrite Hl. reflexivity. }
    rewrite E, run_read_idle by reflexivity.
    cbv zeta. simpl. repeat split; auto.
Qed.

(** ** [send]: what the caller gets back *)

Lemma land_lor_absorb (f n : Z) : Z.land (Z.lor f n) n = n.
Proof.
  apply Z.bits_inj'. intros i Hi.
  rewrite Z.land_spec, Z.lor_spec.
  destruct (Z.testbit f i), (Z.testbit n i); reflexivity.
Qed.

Lemma has_noblock_forced flags :
  NOBLOCK <> 0%Z -> has_noblock (Z.lor flags NOBLOCK) = true.
Proof.
  intros H. unfold has_noblock. rewrite land_lor_absorb.
  apply negb_true_iff, Z.eqb_neq, H.
Qed.

(** C10.  [send] with a payload that is not a [bytes] object fails the
    assertion on its first line: it raises [AssertionError] and the
    world is as it was: no transport call, no change of the queue, no
    future created. *)
Theorem send_asserts_bytes (data : pyobj) (flags : Z) (copy track : bool)
    (w : world) :
  (forall b, data <> PyBytes b) ->
  send data flags copy track w = (Raise (AssertionError data), w).
Proof.
  intros H. destruct data as [| z | s | b | n]; try reflexivity.
  exfalso. exact (H b eq_refl).
Qed.

(** C8, as the code has it.  A [send] of a [bytes] payload calls the
    transport at most once, and then with the no-wait flag, so it never
    blocks the caller.  With an empty payload it is a no-op that returns
    [None]: no completion handle, nothing sent, nothing queued.  With a
    non-empty payload it returns a new completion handle whenever the
    queue is not empty (the entry joins the tail, with no transport
    call), or the transport accepts the message (the handle is fulfilled
    with what the transport returned), or the transport would-blocks and
    the caller did not ask for no-wait (the entry is queued, the handle
    pending, the writer armed).  When the caller asked for no-wait and
    the queue is empty, whatever the transport raises is raised to the
    caller. *)
Theorem send_returns_handle (b : list byte) (flags : Z) (copy track : bool)
    (w : world) :
  NOBLOCK <> 0%Z ->
  let fut := length (futures w) in
  let out := send (PyBytes b) flags copy track w in
  (b = [] -> out = (Ret None, w)) /\
  (sent (snd out) = sent w \/
   exists e, sent (snd out) = sent w ++ [e] /\
             has_noblock (e_flags e) = true /\ e_fut e = fut /\ e_data e = b) /\
  (b <> [] -> _buffer w <> [] ->
     fst out = Ret (Some fut) /\
     futures (snd out) !! fut = Some Pending /\
     _buffer (snd out) = _buffer w ++ [Entry fut b flags copy track] /\
     sent (snd out) = sent w) /\
  (b <> [] -> _buffer w = [] ->
     forall r, send_oracle (length (sent w)) = Done r ->
     fst out = Ret (Some fut) /\
     futures (snd out) !! fut = Some (Finished (Done r)) /\
     _buffer (snd out) = []) /\
  (b <> [] -> _buffer w = [] -> has_noblock flags = false ->
     would_block (send_oracle (length (sent w))) = true ->
     fst out = Ret (Some fut) /\
     futures (snd out) !! fut = Some Pending /\
     _buffer (snd out) = [Entry fut b (Z.lor flags NOBLOCK) copy track] /\
     writer (snd out) = true) /\
  (b <> [] -> _buffer w = [] -> has_noblock flags = true ->
     forall exc, send_oracle (length (sent w)) = Fails exc ->
     fst out = Raise exc /\ _buffer (snd out) = [] /\
     writer (snd out) = writer w).
Proof.
  intros HN fut out. subst out.
  destruct b as [|b0 b].
  { simpl. repeat split; auto; congruence. }
  split; [discriminate|].
  unfold send. cbn [Future fst snd].
  change (_buffer (set_futures (futures w ++ [Pending]) w)) with (_buffer w).
  destruct (_buffer w) as [|e0 q0] eqn:Eq.
  - unfold transport_send, set_result, set_exception, settle. simpl.
    rewrite lookup_fresh_future. fold fut.
    assert (Hfin : forall r : outcome,
               <[fut := Finished r]> (futures w ++ [Pending]) !! fut
               = Some (Finished r)).
    { intros r. apply list_lookup_insert_eq.
      rewrite length_app; simpl; subst fut; lia. }
    pose proof (lookup_fresh_future (futures w)) as Hnew. fold fut in Hnew.
    pose proof (has_noblock_forced flags HN) as Hforced.
    destruct (has_noblock flags) eqn:Hnb.
    + destruct (send_oracle (length (sent w))) as [r | x] eqn:Eo; simpl;
        (split; [right; eexists; repeat split; eauto|]);
        (split; [congruence|]).
      * split; [|split; [intros; discriminate|intros; discriminate]].
        intros _ _ r' Hr'. inversion Hr'; subst r'. auto.
      * split; [intros; discriminate|]. split; [intros; discriminate|].
        intros _ _ _ exc Hexc. inversion Hexc; subst exc. auto.
    + destruct (send_oracle (length (sent w))) as [r | [errno | t | | o]] eqn:Eo;
        simpl; try destruct (errno_ne_eagain errno) eqn:En; simpl;
        (split; [right; eexists; repeat split; eauto|]);
        (split; [congruence|]).
      * split; [|split; [intros; discriminate|intros; discriminate]].
        intros _ _ r' Hr'. inversion Hr'; subst r'. auto.
      * split; [intros; discriminate|]. split; intros; discriminate.
      * split; [intros; discriminate|]. split; [|intros; discriminate].
        intros _ _ _ _. rewrite ?Eq. auto.
      * split; [intros; discriminate|]. split; intros; discriminate.
      * split; [intros; discriminate|]. split; intros; discriminate.
      * split; [intros; discriminate|]. split; intros; discriminate.
  - simpl.
    split; [left; reflexivity|].
    repeat split; intros; try discriminate; auto.
    apply lookup_fresh_future.
Qed.

(** ** [close] *)

(** C3, as the code has it.  The adapter has no [close] of its own.  The
    inherited one is idempotent and changes nothing the adapter owns:
    the queue, every future (a pending one stays pending), the reader
    and writer registrations and the calls made on the loop are as they
    were, after any run. *)
Theorem close_settles_nothing (evs : list event) :
  let w := run evs init in
  let w' := run (evs ++ [CallClose]) init in
  close (close w) = close w /\
  w' = close w /\
  _buffer w' = _buffer w /\
  futures w' = futures w /\
  reader w' = reader w /\
  writer w' = writer w /\
  loop_calls w' = loop_calls w /\
  closed w' = true.
Proof.
  cbv zeta. rewrite run_app. simpl. repeat split; reflexivity.
Qed.

(** * Further properties of the adapter *)

(** ** Read readiness, one firing at a time *)

Lemma settle_other fut r w f :
  f <> fut -> futures (snd (settle fut r w)) !! f = futures w !! f.
Proof.
  intros Hne. destruct (settle_cases fut r w) as [[_ ->] | [_ ->]]; simpl; auto.
  apply list_lookup_insert_ne. congruence.
Qed.

(** A firing whose attempt would-blocks: the reader is removed and
    registered again, the future is untouched. *)
Lemma read_firing_blocked w cb :
  reader w = Some cb ->
  futures w !! cb_fut cb = Some Pending ->
  would_block (recv_oracle (length (recvd w))) = true ->
  step w ReadReady
  = World (_buffer w) (futures w) (Some cb) (writer w)
          (loop_calls w ++ [RemoveReader; AddReader cb]) (sent w)
          (recvd w ++ [RecvCall (cb_flags cb) (cb_copy cb) (cb_track cb)])
          (closed w).
Proof.
  intros Hrd Hp Hwb.
  destruct (would_block_inv _ Hwb) as (errno & Ho & Hne).
  simpl. unfold fire_read. rewrite Hrd.
  unfold _recv, cancelled. simpl. rewrite Hp. simpl. rewrite Ho, Hne.
  unfold add_reader. simpl. rewrite <- app_assoc.
  destruct cb; reflexivity.
Qed.

(** A firing whose attempt is answered, with data or with an error: the
    reader is removed for good and the future is finished with the
    answer. *)
Lemma read_firing_answered w cb :
  reader w = Some cb ->
  futures w !! cb_fut cb = Some Pending ->
  would_block (recv_oracle (length (recvd w))) = false ->
  step w ReadReady
  = World (_buffer w)
          (<[cb_fut cb := Finished (recv_oracle (length (recvd w)))]> (futures w))
          None (writer w) (loop_calls w ++ [RemoveReader]) (sent w)
          (recvd w ++ [RecvCall (cb_flags cb) (cb_copy cb) (cb_track cb)])
          (closed w).
Proof.
  intros Hrd Hp Hwb.
  simpl. unfold fire_read. rewrite Hrd.
  unfold _recv, cancelled. simpl. rewrite Hp. simpl.
  unfold set_result, set_exception, settle. simpl.
  destruct (recv_oracle (length (recvd w))) as [v | [errno | t | | o]];
    simpl; rewrite ?Hp; try reflexivity.
  simpl in Hwb. apply negb_false_iff in Hwb. rewrite Hwb. simpl.
  rewrite ?Hp. reflexivity.
Qed.

(** [n] firings in a row that all would-block. *)
Lemma read_firings_blocked n : forall w cb,
  reader w = Some cb ->
  futures w !! cb_fut cb = Some Pending ->
  (forall i, i < n -> would_block (recv_oracle (length (recvd w) + i)) = true) ->
  let w' := run (replicate n ReadReady) w in
  _buffer w' = _buffer w /\ futures w' = futures w /\
  reader w' = Some cb /\ writer w' = writer w /\
  loop_calls w' = loop_calls w ++
     concat (replicate n [RemoveReader; AddReader cb]) /\
  sent w' = sent w /\
  recvd w' = recvd w ++
     replicate n (RecvCall (cb_flags cb) (cb_copy cb) (cb_track cb)).
Proof.
  induction n as [|n IH]; intros w cb Hrd Hp Hwb.
  - cbv zeta. simpl. rewrite !app_nil_r. repeat split; auto.
  - cbn [replicate]. rewrite run_cons.
    pose proof (Hwb 0 ltac:(lia)) as H0. rewrite Nat.add_0_r in H0.
    rewrite (read_firing_blocked w cb Hrd Hp H0).
    set (w1 := World _ _ _ _ _ _ _ _).
    destruct (IH w1 cb) as (A & B & C & D & E & F & G);
      [reflexivity | exact Hp | |].
    + intros i Hi. subst w1; simpl. rewrite length_app; simpl.
      replace (length (recvd w) + 1 + i) with (length (recvd w) + S i) by lia.
      apply Hwb. lia.
    + cbv zeta. rewrite A, B, C, D, E, F, G. subst w1; simpl.
      rewrite <- !app_assoc. simpl. repeat split; auto.
Qed.

Lemma read_registrations_blocked cb n :
  read_registrations (concat (replicate n [RemoveReader; AddReader cb])) = n.
Proof.
  induction n as [|n IH]; [reflexivity|].
  cbn [replicate concat]. rewrite read_registrations_app, IH. reflexivity.
Qed.

(** [recv], first attempt would-blocks, the second is answered by an
    error that is not a would-block. *)
Lemma recv_deferred_failed flags copy track exc w :
  has_noblock flags = false ->
  would_block (recv_oracle (length (recvd w))) = true ->
  recv_oracle (length (recvd w) + 1) = Fails exc ->
  would_block (Fails exc) = false ->
  recv flags copy track w
  = (Ret (Awaits (length (futures w))),
     World (_buffer w)
           (<[length (futures w) := Finished (Fails exc)]> (futures w ++ [Pending]))
           (reader w) (writer w) (loop_calls w) (sent w)
           (recvd w ++ [RecvCall (Z.lor flags NOBLOCK) copy track;
                        RecvCall (Z.lor flags NOBLOCK) copy track])
           (closed w)).
Proof.
  intros Hnb Hwb Ho Hexc.
  destruct (would_block_inv _ Hwb) as (errno & Ho0 & Hne).
  unfold recv, transport_recv. rewrite Hnb, Ho0, Hne. simpl.
  unfold _recv, cancelled. simpl. rewrite lookup_fresh_future. simpl.
  rewrite length_app. simpl. rewrite Ho.
  unfold set_exception, settle.
  destruct exc as [errno' | t | | o]; simpl;
    rewrite ?lookup_fresh_future; simpl; rewrite <- ?app_assoc;
    try reflexivity.
  simpl in Hexc. apply negb_false_iff in Hexc. rewrite Hexc. simpl.
  rewrite ?lookup_fresh_future. simpl. rewrite <- ?app_assoc. reflexivity.
Qed.

(** [recv], the first attempt is answered by an error that is not a
    would-block: it is raised, and nothing else has happened. *)
Lemma recv_immediate_error flags copy track exc w :
  has_noblock flags = false ->
  recv_oracle (length (recvd w)) = Fails exc ->
  would_block (Fails exc) = false ->
  recv flags copy track w
  = (Raise exc,
     World (_buffer w) (futures w) (reader w) (writer w) (loop_calls w)
           (sent w) (recvd w ++ [RecvCall (Z.lor flags NOBLOCK) copy track])
           (closed w)).
Proof.
  intros Hnb Ho Hexc. unfold recv, transport_recv. rewrite Hnb, Ho.
  destruct exc as [errno | t | | o]; try reflexivity.
  simpl in Hexc. apply negb_false_iff in Hexc. rewrite Hexc. reflexivity.
Qed.

(** X3.  A [recv] without the no-wait flag whose transport would-blocks [k]
    times and then fails with an error that is not a would-block.  For
    [k = 0] the error is raised by the call, which has created no future.
    For [k > 0] the error becomes the exception of the awaited future.
    Either way the transport is called [k + 1] times and never again,
    however often read readiness fires, and no reader stays registered. *)
Theorem recv_error_after_blocks (k m : nat) (flags : Z) (copy track : bool)
    (exc : exn) (w : world) :
  has_noblock flags = false ->
  reader w = None ->
  (forall i, i < k -> would_block (recv_oracle (length (recvd w) + i)) = true) ->
  recv_oracle (length (recvd w) + k) = Fails exc ->
  would_block (Fails exc) = false ->
  k - 1 <= m ->
  let w' := run (CallRecv flags copy track :: replicate m ReadReady) w in
  recvd w' = recvd w ++ replicate (S k) (RecvCall (Z.lor flags NOBLOCK) copy track) /\
  reader w' = None /\
  read_registrations (loop_calls w') = read_registrations (loop_calls w) + (k - 1) /\
  (k = 0 -> fst (recv flags copy track w) = Raise exc /\ futures w' = futures w) /\
  (0 < k ->
     fst (recv flags copy track w) = Ret (Awaits (length (futures w))) /\
     futures w' !! length (futures w) = Some (Finished (Fails exc))).
Proof.
  intros Hnb Hrd Hwb Hexc Hnwb Hm. rewrite run_cons. simpl step.
  destruct k as [|[|j]].
  - rewrite Nat.add_0_r in Hexc.
    rewrite (recv_immediate_error _ _ _ _ _ Hnb Hexc Hnwb). simpl fst; simpl snd.
    rewrite run_read_idle by exact Hrd. simpl.
    rewrite Nat.add_0_r. repeat split; auto; lia.
  - pose proof (Hwb 0 ltac:(lia)) as Hwb0. rewrite Nat.add_0_r in Hwb0.
    rewrite (recv_deferred_failed _ _ _ _ _ Hnb Hwb0 Hexc Hnwb).
    simpl fst; simpl snd.
    rewrite run_read_idle by exact Hrd. simpl.
    rewrite Nat.add_0_r. repeat split; auto; try discriminate.
    apply list_lookup_insert_eq. rewrite length_app; simpl; lia.
  - pose proof (Hwb 0 ltac:(lia)) as Hwb0. rewrite Nat.add_0_r in Hwb0.
    pose proof (Hwb 1 ltac:(lia)) as Hwb1.
    rewrite (recv_deferred_armed _ _ _ _ Hnb Hwb0 Hwb1). simpl fst; simpl snd.
    set (cb := RecvCb (length (futures w)) (Z.lor flags NOBLOCK) copy track).
    set (w3 := World _ _ _ _ _ _ _ _).
    replace m with (j + (1 + (m - S j))) by lia.
    rewrite !replicate_add, !run_app.
    destruct (read_firings_blocked j w3 cb) as (A & B & C & D & E & F & G).
    { reflexivity. }
    { apply lookup_fresh_future. }
    { intros i Hi. subst w3; simpl. rewrite length_app; simpl.
      replace (length (recvd w) + 2 + i) with (length (recvd w) + S (S i)) by lia.
      apply Hwb. lia. }
    set (w4 := run (replicate j ReadReady) w3) in *.
    assert (Hlen : length (recvd w4) = length (recvd w) + S (S j)).
    { rewrite G. subst w3; simpl.
      rewrite !length_app, length_replicate. simpl. lia. }
    assert (Ho : recv_oracle (length (recvd w4)) = Fails exc)
      by (rewrite Hlen; exact Hexc).
    assert (Hp : futures w4 !! cb_fut cb = Some Pending)
      by (rewrite B; apply lookup_fresh_future).
    cbn [replicate]. rewrite run_cons.
    rewrite (read_firing_answered w4 cb C Hp) by (rewrite Ho; exact Hnwb).
    rewrite run_read_idle by reflexivity.
    cbv zeta. simpl. rewrite Ho, B, E, G. subst w3; simpl.
    repeat split; auto; try discriminate.
    + rewrite <- !app_assoc. simpl.
      change (RecvCall (Z.lor flags NOBLOCK) copy track ::
              RecvCall (Z.lor flags NOBLOCK) copy track ::
              replicate j (RecvCall (Z.lor flags NOBLOCK) copy track) ++
              [RecvCall (Z.lor flags NOBLOCK) copy track])
        with (replicate (2 + j) (RecvCall (Z.lor flags NOBLOCK) copy track) ++
              replicate 1 (RecvCall (Z.lor flags NOBLOCK) copy track)).
      rewrite <- replicate_add.
      replace (2 + j + 1) with (S (S (S j))) by lia. reflexivity.
    + rewrite !read_registrations_app, read_registrations_blocked.
      change (read_registrations [AddReader cb]) with 1.
      change (read_registrations [RemoveReader]) with 0. lia.
    + apply list_lookup_insert_eq. rewrite length_app; simpl; lia.
Qed.

(** X4.  Spurious readiness.  A [recv] without the no-wait flag whose
    transport keeps would-blocking: after the call and any number [n] of
    read firings the awaited future is still pending, the reader is
    registered again, and the transport has been called [n + 2] times,
    [add_reader] [n + 1] times. *)
Theorem recv_spurious_readiness (n : nat) (flags : Z) (copy track : bool)
    (w : world) :
  has_noblock flags = false ->
  (forall i, i < n + 2 ->
     would_block (recv_oracle (length (recvd w) + i)) = true) ->
  let fut := length (futures w) in
  let cb := RecvCb fut (Z.lor flags NOBLOCK) copy track in
  let w' := run (CallRecv flags copy track :: replicate n ReadReady) w in
  fst (recv flags copy track w) = Ret (Awaits fut) /\
  futures w' !! fut = Some Pending /\
  reader w' = Some cb /\
  recvd w' = recvd w ++ replicate (n + 2) (RecvCall (Z.lor flags NOBLOCK) copy track) /\
  read_registrations (loop_calls w') = read_registrations (loop_calls w) + (n + 1).
Proof.
  intros Hnb Hwb fut cb. rewrite run_cons. simpl step.
  pose proof (Hwb 0 ltac:(lia)) as Hwb0. rewrite Nat.add_0_r in Hwb0.
  pose proof (Hwb 1 ltac:(lia)) as Hwb1.
  rewrite (recv_deferred_armed _ _ _ _ Hnb Hwb0 Hwb1). simpl fst; simpl snd.
  fold fut. fold cb.
  set (w3 := World _ _ _ _ _ _ _ _).
  destruct (read_firings_blocked n w3 cb) as (A & B & C & D & E & F & G).
  { reflexivity. }
  { apply lookup_fresh_future. }
  { intros i Hi. subst w3; simpl. rewrite length_app; simpl.
    replace (length (recvd w) + 2 + i) with (length (recvd w) + S (S i)) by lia.
    apply Hwb. lia. }
  cbv zeta. rewrite B, C, E, G. subst w3; simpl.
  repeat split; auto.
  - apply lookup_fresh_future.
  - rewrite <- app_assoc. simpl. rewrite Nat.add_comm. reflexivity.
  - rewrite !read_registrations_app, read_registrations_blocked.
    change (read_registrations [AddReader cb]) with 1. lia.
Qed.

(** X1.  A [recv] with the no-wait flag: one call of the transport, with the
    caller's flags as they are; its answer is returned or raised as it
    is, a would-block included; no future is created and the loop is not
    called. *)
Theorem recv_nowait_is_direct (flags : Z) (copy track : bool) (w : world) :
  has_noblock flags = true ->
  let out := recv flags copy track w in
  fst out = match recv_oracle (length (recvd w)) with
            | Done v => Ret (Received v)
            | Fails e => Raise e
            end /\
  recvd (snd out) = recvd w ++ [RecvCall flags copy track] /\
  futures (snd out) = futures w /\
  reader (snd out) = reader w /\
  loop_calls (snd out) = loop_calls w /\
  write_frame w (snd out).
Proof.
  intros Hnb. cbv zeta. unfold recv, transport_recv. rewrite Hnb.
  destruct (recv_oracle (length (recvd w))); simpl;
    repeat split; reflexivity || lia.
Qed.

(** ** What one call of [_recv] and of [recv] can change *)

Lemma _recv_effect fut registered flags copy track w :
  let w' := snd (_recv fut registered flags copy track w) in
  length (futures w') = length (futures w) /\
  (forall f, f <> fut -> futures w' !! f = futures w !! f) /\
  (reader w' = (if registered then None else reader w) \/
   reader w' = Some (RecvCb fut flags copy track)) /\
  (recvd w' = recvd w \/ recvd w' = recvd w ++ [RecvCall flags copy track]).
Proof.
  unfold _recv.
  set (w1 := if registered then remove_reader w else w).
  assert (F : futures w1 = futures w /\ recvd w1 = recvd w /\
              reader w1 = if registered then None else reader w).
  { subst w1. destruct registered; simpl; auto. }
  destruct F as (Ff & Fr & Frd).
  destruct (cancelled fut w1).
  { cbv zeta. simpl. rewrite Ff, Fr, Frd. repeat split; auto. }
  unfold transport_recv.
  set (w2 := World _ _ _ _ _ _ _ _).
  assert (Stop : forall r,
    let w' := snd (settle fut r w2) in
    length (futures w') = length (futures w) /\
    (forall f, f <> fut -> futures w' !! f = futures w !! f) /\
    (reader w' = (if registered then None else reader w) \/
     reader w' = Some (RecvCb fut flags copy track)) /\
    (recvd w' = recvd w \/ recvd w' = recvd w ++ [RecvCall flags copy track])).
  { intros r.
    destruct (settle_fields fut r w2) as (_ & _ & _ & Hrd & _ & Hrv & _ & Hlen).
    cbv zeta. rewrite Hrd, Hrv, Hlen. subst w2; simpl. rewrite Ff, Fr, Frd.
    repeat split; auto.
    intros f Hf. rewrite settle_other by exact Hf. simpl. rewrite ?Ff.
    reflexivity. }
  unfold set_result, set_exception.
  destruct (recv_oracle (length (recvd w1))) as [v | [errno | t | | o]];
    try apply Stop.
  destruct (errno_ne_eagain errno); [apply Stop|].
  cbv zeta. simpl. rewrite Ff, Fr. repeat split; auto.
Qed.

Lemma recv_effect flags copy track w :
  let w' := snd (recv flags copy track w) in
  let fl := if has_noblock flags then flags else Z.lor flags NOBLOCK in
  length (futures w) <= length (futures w') /\
  (forall f, f < length (futures w) -> futures w' !! f = futures w !! f) /\
  (reader w' = reader w \/
   reader w' = Some (RecvCb (length (futures w)) fl copy track) /\
   length (futures w) < length (futures w')) /\
  (recvd w' = recvd w ++ [RecvCall fl copy track] \/
   recvd w' = recvd w ++ [RecvCall fl copy track; RecvCall fl copy track]).
Proof.
  unfold recv, transport_recv.
  destruct (has_noblock flags).
  { destruct (recv_oracle (length (recvd w))); cbv zeta; simpl;
      repeat split; auto. }
  set (fl := Z.lor flags NOBLOCK).
  destruct (recv_oracle (length (recvd w))) as [v | [errno | t | | o]];
    try (cbv zeta; simpl; repeat split; auto; fail).
  destruct (errno_ne_eagain errno);
    [cbv zeta; simpl; repeat split; auto|].
  cbn [Future].
  match goal with
  | |- context [_recv ?f ?r ?l ?c ?t ?w0] =>
      pose proof (_recv_effect f r l c t w0) as (Hlen & Hoth & Hrd & Hrv);
      destruct (_recv f r l c t w0) as [[u|e] w3]
  end;
    cbv zeta; simpl in *; rewrite length_app in Hlen; simpl in Hlen.
  all: split; [lia|]; split;
    [intros f Hf; rewrite Hoth by lia; apply lookup_app_l; exact Hf|];
    split; [destruct Hrd as [Hrd | Hrd]; [left; exact Hrd | right; split; [exact Hrd | lia]]|];
    destruct Hrv as [-> | ->]; rewrite <- ?app_assoc; simpl; auto.
Qed.

(** ** The write path leaves the read path alone, and conversely *)

Lemma read_frame_refl w : read_frame w w.
Proof. unfold read_frame; auto. Qed.

Lemma read_frame_trans w1 w2 w3 :
  read_frame w1 w2 -> read_frame w2 w3 -> read_frame w1 w3.
Proof.
  unfold read_frame. intros (A & B & C) (A' & B' & C').
  repeat split; congruence.
Qed.

Lemma settle_read_frame fut r w : read_frame w (snd (settle fut r w)).
Proof.
  destruct (settle_fields fut r w) as (_ & _ & _ & A & B & C & _).
  unfold read_frame. cbv zeta in *. rewrite A, B, C. auto.
Qed.

Lemma cancel_read_frame fut w : read_frame w (cancel fut w).
Proof.
  unfold cancel. destruct (futures w !! fut) as [[| |o]|];
    unfold read_frame; simpl; auto.
Qed.

Lemma _send_ready_loop_read_frame q : forall w,
  read_frame w (snd (_send_ready_loop q w)).
Proof.
  induction q as [|e q IH]; intros w; simpl.
  - unfold read_frame; simpl. rewrite read_registrations_app.
    change (read_registrations [RemoveWriter]) with 0. auto.
  - unfold set_result, set_exception.
    set (w2 := World q _ _ _ _ _ _ _).
    assert (F2 : read_frame w w2) by (unfold read_frame; subst w2; simpl; auto).
    assert (Stop : forall fut r, read_frame w (snd (settle fut r w2))).
    { intros fut r. eapply read_frame_trans;
        [exact F2 | apply settle_read_frame]. }
    destruct (send_oracle (length (sent w))) as [r | [errno | t | | o]];
      try apply Stop.
    + destruct (settle_cases (e_fut e) (Done r) w2) as [[_ ->] | [_ ->]];
        [|apply Stop].
      eapply read_frame_trans; [|apply IH].
      unfold read_frame; simpl; auto.
    + destruct (errno_ne_eagain errno); [apply Stop|].
      unfold read_frame; simpl; auto.
Qed.

Lemma send_read_frame data flags copy track w :
  read_frame w (snd (send data flags copy track w)).
Proof.
  unfold send.
  destruct data as [| z | s | b | n]; try apply read_frame_refl.
  destruct b as [|b0 b]; [apply read_frame_refl|].
  cbn [Future fst snd].
  change (_buffer (set_futures (futures w ++ [Pending]) w)) with (_buffer w).
  destruct (_buffer w) as [|e0 q0].
  - unfold transport_send, set_result, set_exception, settle. simpl.
    rewrite lookup_fresh_future.
    destruct (has_noblock flags);
      destruct (send_oracle (length (sent w))) as [r | [errno | t | | o]];
      simpl; try (unfold read_frame; simpl; auto; fail).
    destruct (errno_ne_eagain errno); simpl.
    + unfold read_frame; simpl; auto.
    + unfold read_frame; simpl. rewrite read_registrations_app.
      change (read_registrations [AddWriter]) with 0. auto.
  - unfold read_frame; simpl; auto.
Qed.

(** X6.  The two paths of the adapter are separate.  A run with no [send]
    call and no write firing (receives, read firings, cancellations, a
    close) leaves the queue, the transport's [send] log and the writer as
    they were.  A run with no [recv] call and no read firing leaves the
    reader, the transport's [recv] log and the number of [add_reader]
    calls as they were. *)
Theorem paths_are_separate (evs : list event) (w : world) :
  (forallb (fun ev => negb (send_side ev)) evs = true ->
   let w' := run evs w in
   _buffer w' = _buffer w /\ sent w' = sent w /\ writer w' = writer w) /\
  (forallb (fun ev => negb (recv_side ev)) evs = true ->
   let w' := run evs w in
   reader w' = reader w /\ recvd w' = recvd w /\
   read_registrations (loop_calls w') = read_registrations (loop_calls w)).
Proof.
  split.
  - intros H. cut (write_frame w (run evs w)).
    { intros (A & B & C & _). auto. }
    revert w. induction evs as [|ev evs IH]; intros w;
      [apply write_frame_refl|].
    simpl in H. apply andb_true_iff in H as [Hev H].
    rewrite run_cons. eapply write_frame_trans; [|apply IH; exact H].
    destruct ev as [d f c t | f c t | | | fut |]; simpl in *;
      try discriminate.
    + apply recv_write_frame.
    + unfold fire_read. destruct (reader w) as [cb|];
        [apply _recv_write_frame | apply write_frame_refl].
    + apply cancel_write_frame.
    + unfold write_frame; simpl; auto.
  - intros H. cut (read_frame w (run evs w)).
    { intros (A & B & C). auto. }
    revert w. induction evs as [|ev evs IH]; intros w;
      [apply read_frame_refl|].
    simpl in H. apply andb_true_iff in H as [Hev H].
    rewrite run_cons. eapply read_frame_trans; [|apply IH; exact H].
    destruct ev as [d f c t | f c t | | | fut |]; simpl in *;
      try discriminate.
    + apply send_read_frame.
    + unfold fire_write. destruct (writer w);
        [apply _send_ready_loop_read_frame | apply read_frame_refl].
    + apply cancel_read_frame.
    + unfold read_frame; simpl; auto.
Qed.

(** ** The transport's [recv] is never called without the no-wait flag *)

Lemma step_nowait_reads w ev :
  NOBLOCK <> 0%Z -> nowait_reads NOBLOCK w -> nowait_reads NOBLOCK (step w ev).
Proof.
  intros HN [Hlog Hcb].
  assert (Frame : forall w', read_frame w w' -> nowait_reads NOBLOCK w').
  { intros w' (A & B & _). unfold nowait_reads. rewrite A, B. auto. }
  destruct ev as [d f c t | f c t | | | fut |]; unfold step; cbv beta iota.
  - apply Frame, send_read_frame.
  - pose proof (recv_effect f c t w) as (_ & _ & Hrd & Hrv). cbv zeta in *.
    set (fl := if has_noblock f then f else Z.lor f NOBLOCK) in *.
    assert (Hfl : has_noblock fl = true).
    { subst fl. destruct (has_noblock f) eqn:E; [exact E|].
      apply has_noblock_forced, HN. }
    split.
    + destruct Hrv as [-> | ->]; apply List.Forall_app; split; auto;
        repeat constructor; exact Hfl.
    + intros cb Hc. destruct Hrd as [Hrd | [Hrd _]]; rewrite Hrd in Hc.
      * apply Hcb, Hc.
      * inversion Hc; subst cb. exact Hfl.
  - unfold fire_write. destruct (writer w); [|split; auto].
    apply Frame, _send_ready_loop_read_frame.
  - unfold fire_read. destruct (reader w) as [cb|] eqn:Er;
      [|simpl; split; [exact Hlog | intros cb' Hc; congruence]].
    pose proof (Hcb cb eq_refl) as Hfl.
    pose proof (_recv_effect (cb_fut cb) true (cb_flags cb) (cb_copy cb)
                  (cb_track cb) w) as (_ & _ & Hrd & Hrv). cbv zeta in *.
    split.
    + destruct Hrv as [-> | ->]; [exact Hlog|].
      apply List.Forall_app; split; [exact Hlog|].
      constructor; [exact Hfl | constructor].
    + intros cb' Hc. destruct Hrd as [Hrd | Hrd]; rewrite Hrd in Hc;
        [discriminate|]. inversion Hc; subst cb'. exact Hfl.
  - apply Frame, cancel_read_frame.
  - split; auto.
Qed.

(** X2.  Over every run of a new socket, every call of the transport's
    [recv], made by [recv] itself or by the registered callback, carries
    the no-wait flag: the loop's thread never blocks in a receive. *)
Theorem recv_calls_never_block (evs : list event) :
  NOBLOCK <> 0%Z ->
  let w := run evs init in
  Forall (fun c => has_noblock (rc_flags c) = true) (recvd w) /\
  (forall cb, reader w = Some cb -> has_noblock (cb_flags cb) = true).
Proof.
  intros HN.
  assert (G : forall w, nowait_reads NOBLOCK w -> nowait_reads NOBLOCK (run evs w)).
  { induction evs as [|ev evs IH]; intros w H; [exact H|].
    rewrite run_cons. apply IH, step_nowait_reads; assumption. }
  apply G. split; [constructor | intros cb H; discriminate H].
Qed.

(** ** A second receive while one is waiting *)

Lemma read_firing_keeps_other f1 f2 w :
  f1 <> f2 ->
  futures w !! f1 = Some Pending ->
  (reader w = None \/ exists cb, reader w = Some cb /\ cb_fut cb = f2) ->
  let w' := step w ReadReady in
  futures w' !! f1 = Some Pending /\
  (reader w' = None \/ exists cb, reader w' = Some cb /\ cb_fut cb = f2).
Proof.
  intros Hne Hp Hrd. simpl. unfold fire_read.
  destruct (reader w) as [cb|] eqn:Er; [|simpl; auto].
  destruct Hrd as [Hrd | (cb' & Hrd & Hf)]; [discriminate|].
  inversion Hrd; subst cb'.
  pose proof (_recv_effect (cb_fut cb) true (cb_flags cb) (cb_copy cb)
                (cb_track cb) w) as (_ & Hoth & Hrd' & _). cbv zeta in *.
  split.
  - rewrite Hoth by congruence. exact Hp.
  - destruct Hrd' as [-> | ->]; [left; reflexivity|].
    right. eexists. split; [reflexivity | exact Hf].
Qed.

(** X5.  A [recv] that ends up waiting while the reader is registered for an
    earlier receive takes the registration over.  From then on, whatever
    the transport answers and however often read readiness fires, the
    earlier receive's future stays pending: the adapter never settles
    it, and its callback is never registered again. *)
Theorem second_recv_takes_over (m : nat) (flags : Z) (copy track : bool)
    (w : world) (cb1 : recv_cb) :
  has_noblock flags = false ->
  reader w = Some cb1 ->
  futures w !! cb_fut cb1 = Some Pending ->
  would_block (recv_oracle (length (recvd w))) = true ->
  would_block (recv_oracle (length (recvd w) + 1)) = true ->
  let w' := run (CallRecv flags copy track :: replicate m ReadReady) w in
  futures w' !! cb_fut cb1 = Some Pending /\
  reader w' <> Some cb1 /\
  (reader w' = None \/
   exists cb, reader w' = Some cb /\ cb_fut cb = length (futures w)).
Proof.
  intros Hnb Hrd Hp Hwb0 Hwb1. rewrite run_cons. simpl step.
  rewrite (recv_deferred_armed _ _ _ _ Hnb Hwb0 Hwb1). simpl snd.
  set (w3 := World _ _ _ _ _ _ _ _).
  assert (Hlt : cb_fut cb1 < length (futures w))
    by (eapply lookup_lt_Some; exact Hp).
  assert (J : futures w3 !! cb_fut cb1 = Some Pending /\
              (reader w3 = None \/
               exists cb, reader w3 = Some cb /\ cb_fut cb = length (futures w))).
  { subst w3; simpl. split.
    - rewrite lookup_app_l by exact Hlt. exact Hp.
    - right. eexists. split; reflexivity. }
  clearbody w3.
  assert (G : let w' := run (replicate m ReadReady) w3 in
              futures w' !! cb_fut cb1 = Some Pending /\
              (reader w' = None \/
               exists cb, reader w' = Some cb /\ cb_fut cb = length (futures w))).
  { revert w3 J. induction m as [|m IH]; intros w3 [J1 J2]; [split; assumption|].
    cbn [replicate]. rewrite run_cons. apply IH.
    apply read_firing_keeps_other; [lia | exact J1 | exact J2]. }
  cbv zeta in *. destruct G as [G1 G2]. split; [exact G1|]. split; [|exact G2].
  intros Heq. destruct G2 as [G2 | (cb & G2 & Hf)]; rewrite G2 in Heq.
  - discriminate.
  - inversion Heq; subst cb. lia.
Qed.

(** ** No call is repeated once the transport has answered it *)

Lemma lookup_snoc_cases {A} (l : list A) (x : A) i a :
  (l ++ [x]) !! i = Some a ->
  (i < length l /\ l !! i = Some a) \/ (i = length l /\ a = x).
Proof.
  intros H. destruct (Nat.lt_ge_cases i (length l)) as [Hlt | Hge].
  - left. split; [exact Hlt|]. rewrite lookup_app_l in H by exact Hlt. exact H.
  - right. rewrite lookup_app_r in H by exact Hge.
    destruct (i - length l) as [|k] eqn:E; simpl in H; [|discriminate].
    inversion H. split; [lia | reflexivity].
Qed.

Lemma answered_once_snoc log e :
  answered_gone EAGAIN send_oracle log [e] ->
  answered_once EAGAIN send_oracle log ->
  answered_once EAGAIN send_oracle (log ++ [e]).
Proof.
  intros Hg Ho i j a b Ha Hb Hij Hwb.
  apply lookup_snoc_cases in Ha as [[Hi Ha] | [Hi ->]];
    apply lookup_snoc_cases in Hb as [[Hj Hb] | [Hj ->]]; try lia.
  - exact (Ho i j a b Ha Hb Hij Hwb).
  - specialize (Hg i a Ha Hwb). inversion Hg; assumption.
Qed.

Lemma answered_gone_weaken log q q' :
  (forall e, In e q' -> In e q) ->
  answered_gone EAGAIN send_oracle log q ->
  answered_gone EAGAIN send_oracle log q'.
Proof.
  intros Hsub Hg i a Ha Hwb. specialize (Hg i a Ha Hwb).
  rewrite List.Forall_forall in *. intros e He. apply Hg, Hsub, He.
Qed.

(** The head has been attempted and has left the queue. *)
Lemma answered_gone_pop e q log :
  StronglySorted lt (map e_fut (e :: q)) ->
  answered_gone EAGAIN send_oracle log (e :: q) ->
  answered_gone EAGAIN send_oracle (log ++ [e]) q.
Proof.
  intros Hs Hg i a Ha Hwb.
  apply lookup_snoc_cases in Ha as [[Hi Ha] | [Hi ->]].
  - specialize (Hg i a Ha Hwb). inversion Hg; assumption.
  - simpl in Hs. apply StronglySorted_inv in Hs as [_ Hs].
    rewrite List.Forall_map in Hs. exact Hs.
Qed.

(** The head has been attempted, would-blocked, and is kept. *)
Lemma answered_gone_retry e q log :
  would_block (send_oracle (length log)) = true ->
  answered_gone EAGAIN send_oracle log (e :: q) ->
  answered_gone EAGAIN send_oracle (log ++ [e]) (e :: q).
Proof.
  intros Hw Hg i a Ha Hwb.
  apply lookup_snoc_cases in Ha as [[Hi Ha] | [Hi ->]].
  - exact (Hg i a Ha Hwb).
  - subst i. congruence.
Qed.

(** Everything logged is older than a future not yet allocated. *)
Lemma answered_gone_fresh log q n e :
  Forall (fun a => e_fut a < n) log -> e_fut e = n ->
  answered_gone EAGAIN send_oracle log q ->
  answered_gone EAGAIN send_oracle log (q ++ [e]).
Proof.
  intros Hn He Hg i a Ha Hwb.
  apply List.Forall_app; split; [exact (Hg i a Ha Hwb)|].
  constructor; [|constructor]. rewrite He.
  rewrite List.Forall_forall in Hn. apply Hn.
  apply list_elem_of_In, list_elem_of_lookup. eauto.
Qed.

Lemma _send_ready_loop_once q : forall w,
  fifo_ok q (sent w) (length (futures w)) ->
  answered_gone EAGAIN send_oracle (sent w) q ->
  answered_once EAGAIN send_oracle (sent w) ->
  let w' := snd (_send_ready_loop q w) in
  answered_gone EAGAIN send_oracle (sent w') (_buffer w') /\
  answered_once EAGAIN send_oracle (sent w').
Proof.
  induction q as [|e q IH]; intros w Hf Hg Ho; simpl.
  - split; [|exact Ho]. intros i a _ _. constructor.
  - unfold set_result, set_exception.
    set (w2 := World q _ _ _ _ _ _ _).
    assert (Hsorted : StronglySorted lt (map e_fut (e :: q))) by apply Hf.
    assert (Ho' : answered_once EAGAIN send_oracle (sent w ++ [e])).
    { apply answered_once_snoc; [|exact Ho].
      eapply answered_gone_weaken; [|exact Hg].
      intros x [<- | []]. left; reflexivity. }
    assert (Hg' : answered_gone EAGAIN send_oracle (sent w ++ [e]) q)
      by (apply answered_gone_pop; assumption).
    assert (Stop : forall fut r,
      let w' := snd (settle fut r w2) in
      answered_gone EAGAIN send_oracle (sent w') (_buffer w') /\
      answered_once EAGAIN send_oracle (sent w')).
    { intros fut r. destruct (settle_fields fut r w2) as (Hb & Hs & _).
      cbv zeta in *. rewrite Hb, Hs. subst w2; simpl. split; assumption. }
    destruct (send_oracle (length (sent w))) as [r | [errno | t | | o]] eqn:Eo;
      try apply Stop.
    + destruct (settle_cases (e_fut e) (Done r) w2) as [[_ ->] | [_ ->]];
        [|apply Stop].
      apply IH; simpl; try assumption.
      rewrite length_insert. apply fifo_ok_pop; exact Hf.
    + destruct (errno_ne_eagain errno) eqn:En; [apply Stop|].
      simpl. split; [|exact Ho'].
      apply answered_gone_retry; [|exact Hg].
      rewrite Eo. simpl. rewrite En. reflexivity.
Qed.

Lemma send_once data flags copy track w :
  once_inv EAGAIN send_oracle w ->
  once_inv EAGAIN send_oracle (snd (send data flags copy track w)).
Proof.
  intros (Hf & Hg & Ho).
  split; [apply send_fifo; exact Hf|].
  unfold send.
  destruct data as [| z | s | b | n]; try (split; assumption).
  destruct b as [|b0 b]; [split; assumption|].
  cbn [Future fst snd].
  change (_buffer (set_futures (futures w ++ [Pending]) w)) with (_buffer w).
  assert (Hlog : Forall (fun a => e_fut a < length (futures w)) (sent w))
    by apply Hf.
  destruct (_buffer w) as [|e0 q0] eqn:Eq.
  - unfold transport_send, set_result, set_exception, settle. simpl.
    rewrite lookup_fresh_future.
    assert (Fresh : forall fl,
      answered_once EAGAIN send_oracle
        (sent w ++ [Entry (length (futures w)) (b0 :: b) fl copy track])).
    { intros fl. apply answered_once_snoc; [|exact Ho].
      apply (answered_gone_fresh (sent w) [] (length (futures w)));
        [exact Hlog | reflexivity |].
      intros i a _ _. constructor. }
    assert (Nil : forall log, answered_gone EAGAIN send_oracle log []).
    { intros log i a _ _. constructor. }
    destruct (has_noblock flags);
      destruct (send_oracle (length (sent w))) as [r | [errno | t | | o]] eqn:Eo;
      simpl; rewrite ?Eq; try (split; [apply Nil | apply Fresh]).
    destruct (errno_ne_eagain errno) eqn:En; simpl; rewrite ?Eq;
      [split; [apply Nil | apply Fresh]|].
    split; [|apply Fresh].
    apply (answered_gone_retry _ []).
    + rewrite Eo. simpl. rewrite En. reflexivity.
    + apply (answered_gone_fresh (sent w) [] (length (futures w)));
        [exact Hlog | reflexivity | apply Nil].
  - simpl. rewrite ?Eq. split; [|exact Ho].
    apply (answered_gone_fresh (sent w) (e0 :: q0) (length (futures w)));
      [exact Hlog | reflexivity | exact Hg].
Qed.

Lemma once_inv_frame w w' :
  write_frame w w' ->
  once_inv EAGAIN send_oracle w -> once_inv EAGAIN send_oracle w'.
Proof.
  intros F (Hf & Hg & Ho).
  split; [eapply fifo_inv_frame; eassumption|].
  destruct F as (A & B & _). rewrite A, B. split; assumption.
Qed.

Lemma run_once evs : forall w,
  once_inv EAGAIN send_oracle w -> once_inv EAGAIN send_oracle (run evs w).
Proof.
  induction evs as [|ev evs IH]; intros w H; [exact H|].
  rewrite run_cons. apply IH.
  destruct ev as [d f c t | f c t | | | fut |]; unfold step; cbv beta iota.
  - apply send_once; exact H.
  - eapply once_inv_frame; [apply recv_write_frame | exact H].
  - unfold fire_write. destruct (writer w); [|exact H].
    destruct H as (Hf & Hg & Ho).
    split; [apply _send_ready_loop_fifo; exact Hf|].
    apply _send_ready_loop_once; assumption.
  - unfold fire_read. destruct (reader w) as [cb|]; [|exact H].
    eapply once_inv_frame; [apply _recv_write_frame | exact H].
  - eapply once_inv_frame; [apply cancel_write_frame | exact H].
  - eapply once_inv_frame; [|exact H]. unfold write_frame; simpl; auto.
Qed.

(** X8.  Over every run of a new socket: once the transport has answered the
    call made for an entry with anything but a would-block (it took the
    message, or it failed for good), every later call of the transport
    is for a later [send].  No message is put on the wire twice, and a
    send that failed is not tried again; only a would-block is retried. *)
Theorem answered_call_is_not_repeated (evs : list event) (i j : nat)
    (a b : entry) :
  let w := run evs init in
  sent w !! i = Some a ->
  sent w !! j = Some b ->
  i < j ->
  would_block (send_oracle i) = false ->
  e_fut a < e_fut b.
Proof.
  intros w. subst w.
  assert (H : once_inv EAGAIN send_oracle (run evs init)).
  { apply run_once. split; [apply init_fifo|].
    split; [intros k x Hx; discriminate Hx | intros k l x y Hx; discriminate Hx]. }
  destruct H as (_ & _ & Ho). apply Ho.
Qed.

(** ** The future of a queued entry is not settled while it waits *)

Lemma StronglySorted_lt_NoDup (l : list nat) :
  StronglySorted lt l -> NoDup l.
Proof.
  induction 1 as [|x l Hl IH Hx]; constructor; [|exact IH].
  intros Hin. apply list_elem_of_In in Hin.
  rewrite List.Forall_forall in Hx. specialize (Hx x Hin). lia.
Qed.

Lemma drop_apart (q : list entry) (n : nat) (e : entry) :
  NoDup (map e_fut q) -> In e (drop n q) ->
  ~ In (e_fut e) (map e_fut (take n q)).
Proof.
  intros Hnd He Hin.
  rewrite <- (take_drop n q), map_app in Hnd.
  apply NoDup_app in Hnd as (_ & Hd & _).
  apply (Hd (e_fut e)).
  - apply list_elem_of_In; exact Hin.
  - apply list_elem_of_In, in_map; exact He.
Qed.

Lemma In_drop {A} (l : list A) (n : nat) (x : A) : In x (drop n l) -> In x l.
Proof.
  intros H. rewrite <- (take_drop n l). apply in_or_app. right; exact H.
Qed.

(** What one drain can change: it leaves a suffix of the queue, and
    touches the futures of the entries it removed only. *)
Lemma _send_ready_loop_futures q : forall w,
  let w' := snd (_send_ready_loop q w) in
  length (futures w') = length (futures w) /\
  reader w' = reader w /\
  exists n, _buffer w' = drop n q /\
    forall fut, ~ In fut (map e_fut (take n q)) ->
                futures w' !! fut = futures w !! fut.
Proof.
  induction q as [|e q IH]; intros w; simpl.
  - repeat split. exists 0. split; auto.
  - unfold set_result, set_exception.
    set (w2 := World q _ _ _ _ _ _ _).
    assert (Stop : forall r,
      let w' := snd (settle (e_fut e) r w2) in
      length (futures w') = length (futures w) /\
      reader w' = reader w /\
      exists n, _buffer w' = drop n (e :: q) /\
        forall fut, ~ In fut (map e_fut (take n (e :: q))) ->
                    futures w' !! fut = futures w !! fut).
    { intros r.
      destruct (settle_fields (e_fut e) r w2) as (Hb & _ & _ & Hrd & _ & _ & _ & Hl).
      cbv zeta in *. rewrite Hb, Hrd, Hl. subst w2; simpl.
      repeat split. exists 1. simpl. rewrite drop_0. split; [reflexivity|].
      intros fut Hfut. rewrite settle_other; [reflexivity|].
      intros ->. apply Hfut. left; reflexivity. }
    destruct (send_oracle (length (sent w))) as [r | [errno | t | | o]];
      try apply Stop.
    + destruct (settle_cases (e_fut e) (Done r) w2) as [[_ ->] | [_ ->]];
        [|apply Stop].
      match goal with
      | |- context [_send_ready_loop q ?w0] =>
          pose proof (IH w0) as IHw; cbv zeta in IHw;
          set (w' := snd (_send_ready_loop q w0)) in *
      end.
      destruct IHw as (Hl & Hrd & n & Hb & Hf).
      cbv zeta. simpl in Hl, Hrd. rewrite length_insert in Hl.
      rewrite Hl, Hrd. repeat split. exists (S n). split; [exact Hb|].
      intros fut Hfut. simpl in Hfut.
      rewrite Hf by (intros Hin; apply Hfut; right; exact Hin). simpl.
      apply list_lookup_insert_ne. intros Heq. apply Hfut. left; exact Heq.
    + destruct (errno_ne_eagain errno); [apply Stop|].
      simpl. repeat split. exists 0. simpl. split; auto.
Qed.

(** What one [send] can change: it may allocate futures, leaves the
    allocated ones as they are, and appends at most one entry, whose
    future is new and pending. *)
Lemma send_effect data flags copy track w :
  let w' := snd (send data flags copy track w) in
  length (futures w) <= length (futures w') /\
  (forall f, f < length (futures w) -> futures w' !! f = futures w !! f) /\
  (_buffer w' = _buffer w \/
   exists e, _buffer w' = _buffer w ++ [e] /\
             e_fut e = length (futures w) /\
             futures w' !! length (futures w) = Some Pending).
Proof.
  unfold send.
  destruct data as [| z | s | b | n];
    try (cbv zeta; simpl; repeat split; auto; fail).
  destruct b as [|b0 b]; [cbv zeta; simpl; repeat split; auto|].
  cbn [Future fst snd].
  change (_buffer (set_futures (futures w ++ [Pending]) w)) with (_buffer w).
  assert (Hold : forall f, f < length (futures w) ->
                           (futures w ++ [Pending]) !! f = futures w !! f).
  { intros f Hf. apply lookup_app_l; exact Hf. }
  assert (Hset : forall r f, f < length (futures w) ->
            <[length (futures w) := r]> (futures w ++ [Pending]) !! f
            = futures w !! f).
  { intros r f Hf. rewrite list_lookup_insert_ne by lia. apply Hold, Hf. }
  destruct (_buffer w) as [|e0 q0] eqn:Eq.
  - unfold transport_send, set_result, set_exception, settle. simpl.
    rewrite lookup_fresh_future.
    destruct (has_noblock flags);
      destruct (send_oracle (length (sent w))) as [r | [errno | t | | o]];
      simpl; try destruct (errno_ne_eagain errno); simpl;
      rewrite ?Eq, ?length_insert, ?length_app; simpl;
      (split; [lia|]); (split; [assumption || apply Hset|]);
      try (left; reflexivity).
    right. eexists. split; [reflexivity|]. split; [reflexivity|].
    apply lookup_fresh_future.
  - simpl. rewrite ?Eq, length_app. simpl.
    split; [lia|]. split; [exact Hold|].
    right. eexists. split; [reflexivity|]. split; [reflexivity|].
    apply lookup_fresh_future.
Qed.

Lemma cancel_unsettled fut w f :
  unsettled w f -> unsettled (cancel fut w) f.
Proof.
  unfold cancel, unsettled.
  destruct (futures w !! fut) as [[| |o]|] eqn:E; auto.
  simpl. intros H. destruct (Nat.eq_dec f fut) as [-> | Hne].
  - right. apply list_lookup_insert_eq. eapply lookup_lt_Some; exact E.
  - rewrite list_lookup_insert_ne by congruence. exact H.
Qed.

Lemma step_unsettled w ev :
  fifo_inv w -> queue_unsettled w -> queue_unsettled (step w ev).
Proof.
  intros Hf [Hq Hr].
  assert (Hbound : forall e, In e (_buffer w) -> e_fut e < length (futures w)).
  { destruct Hf as (_ & _ & C & _). rewrite List.Forall_forall in C. exact C. }
  destruct ev as [d f c t | f c t | | | fut |]; unfold step; cbv beta iota.
  - pose proof (send_effect d f c t w) as (Hl & Hold & Hb).
    pose proof (send_read_frame d f c t w) as (Hrd & _).
    cbv zeta in *. split.
    + intros e He. destruct Hb as [Hb | (e' & Hb & He' & Hp)];
        rewrite Hb in He.
      * unfold unsettled. rewrite Hold by (apply Hbound, He). apply Hq, He.
      * apply in_app_or in He as [He | [<- | []]].
        -- unfold unsettled. rewrite Hold by (apply Hbound, He). apply Hq, He.
        -- left. rewrite He'. exact Hp.
    + intros cb Hcb. rewrite Hrd in Hcb. destruct (Hr cb Hcb) as [Hlt Hnin].
      split; [lia|].
      destruct Hb as [Hb | (e' & Hb & He' & Hp)]; rewrite Hb; [exact Hnin|].
      rewrite map_app. intros Hin. apply in_app_or in Hin as [Hin | [Hin | []]].
      * exact (Hnin Hin).
      * simpl in Hin. lia.
  - pose proof (recv_effect f c t w) as (Hl & Hold & Hrd & _).
    pose proof (recv_write_frame f c t w) as (Hb & _).
    cbv zeta in *. unfold queue_unsettled. rewrite Hb. split.
    + intros e He. unfold unsettled. rewrite Hold by (apply Hbound, He).
      apply Hq, He.
    + intros cb Hcb. destruct Hrd as [Hrd | [Hrd Hlt]]; rewrite Hrd in Hcb.
      * destruct (Hr cb Hcb) as [Hlt Hnin]. split; [lia | exact Hnin].
      * inversion Hcb; subst cb. simpl. split; [exact Hlt|].
        intros Hin. apply in_map_iff in Hin as (e & He & Hin).
        specialize (Hbound e Hin). lia.
  - unfold fire_write. destruct (writer w); [|split; assumption].
    unfold _send_ready.
    pose proof (_send_ready_loop_futures (_buffer w) w)
      as (Hl & Hrd & n & Hb & Hfut).
    cbv zeta in *.
    assert (Hnd : NoDup (map e_fut (_buffer w))).
    { apply StronglySorted_lt_NoDup. apply Hf. }
    split.
    + intros e He. rewrite Hb in He. unfold unsettled.
      rewrite Hfut by (apply drop_apart; assumption).
      apply Hq. eapply In_drop; exact He.
    + intros cb Hcb. rewrite Hrd in Hcb. destruct (Hr cb Hcb) as [Hlt Hnin].
      split; [lia|]. rewrite Hb. intros Hin. apply Hnin.
      apply in_map_iff in Hin as (e & He & Hin).
      apply in_map_iff. exists e. split; [exact He|].
      eapply In_drop; exact Hin.
  - unfold fire_read. destruct (reader w) as [cb|] eqn:Er;
      [|simpl; split; [exact Hq | intros cb' Hc; congruence]].
    destruct (Hr cb eq_refl) as [Hlt Hnin].
    pose proof (_recv_effect (cb_fut cb) true (cb_flags cb) (cb_copy cb)
                  (cb_track cb) w) as (Hl & Hoth & Hrd & _).
    pose proof (_recv_write_frame (cb_fut cb) true (cb_flags cb) (cb_copy cb)
                  (cb_track cb) w) as (Hb & _).
    cbv zeta in *. unfold queue_unsettled. rewrite Hb. split.
    + intros e He. unfold unsettled. rewrite Hoth; [apply Hq, He|].
      intros Heq. apply Hnin. rewrite <- Heq. apply in_map; exact He.
    + intros cb' Hcb. destruct Hrd as [Hrd | Hrd]; rewrite Hrd in Hcb;
        [discriminate|]. inversion Hcb; subst cb'. simpl.
      split; [lia | exact Hnin].
  - split.
    + intros e He.
      assert (Hbuf : _buffer (cancel fut w) = _buffer w)
        by apply cancel_write_frame.
      rewrite Hbuf in He. apply cancel_unsettled, Hq, He.
    + destruct (cancel_write_frame fut w) as (Hb & _ & _ & Hl).
      destruct (cancel_read_frame fut w) as (Hrd & _).
      intros cb Hcb. rewrite Hrd in Hcb. destruct (Hr cb Hcb) as [Hlt Hnin].
      rewrite Hb. split; [lia | exact Hnin].
  - split; assumption.
Qed.

Lemma run_unsettled evs : forall w,
  fifo_inv w -> queue_unsettled w -> queue_unsettled (run evs w).
Proof.
  induction evs as [|ev evs IH]; intros w Hf Hq; [exact Hq|].
  rewrite run_cons. apply IH; [apply step_fifo | apply step_unsettled];
    assumption.
Qed.

Lemma init_unsettled : queue_unsettled init.
Proof. split; [intros e [] | intros cb H; discriminate H]. Qed.

(** X9.  Over every run of a new socket, the future of an entry that is
    still queued is pending, or cancelled by its holder: the adapter
    settles the future of a send only once its entry has left the queue,
    and settling one operation never touches the future of a queued
    one. *)
Theorem queued_future_is_unsettled (evs : list event) (e : entry) :
  let w := run evs init in
  In e (_buffer w) ->
  futures w !! e_fut e = Some Pending \/ futures w !! e_fut e = Some Cancelled.
Proof.
  intros w He.
  destruct (run_unsettled evs init init_fifo init_unsettled) as [Hq _].
  exact (Hq e He).
Qed.

(** ** Drains of a socket as runs leave it *)

Lemma writer_covers_run evs : forall w,
  writer_covers w -> writer_covers (run evs w).
Proof.
  induction evs as [|ev evs IH]; intros w H; [exact H|].
  rewrite run_cons. apply IH.
  destruct ev as [d f c t | f c t | | | fut |]; unfold step; cbv beta iota.
  - apply send_writer; exact H.
  - eapply writer_covers_frame; [apply recv_write_frame | exact H].
  - unfold fire_write. destruct (writer w) eqn:Hw; [|exact H].
    apply _send_ready_loop_writer; exact Hw.
  - unfold fire_read. destruct (reader w) as [cb|]; [|exact H].
    eapply writer_covers_frame; [apply _recv_write_frame | exact H].
  - eapply writer_covers_frame; [apply cancel_write_frame | exact H].
  - exact H.
Qed.

(** The state a run leaves, drained by a transport that takes every
    queued message. *)
Lemma drain_after_run evs :
  let w := run evs init in
  (forall e, In e (_buffer w) -> futures w !! e_fut e <> Some Cancelled) ->
  (forall i, i < length (_buffer w) ->
     exists r, send_oracle (length (sent w) + i) = Done r) ->
  let w' := step w WriteReady in
  _buffer w' = [] /\
  writer w' = false /\
  sent w' = sent w ++ _buffer w /\
  (forall i e, _buffer w !! i = Some e ->
     futures w' !! e_fut e
     = Some (Finished (send_oracle (length (sent w) + i)))).
Proof.
  intros w Hnc Hacc.
  pose proof (run_fifo evs init init_fifo) as Hf. fold w in Hf.
  destruct (run_unsettled evs init init_fifo init_unsettled) as [Hq _].
  fold w in Hq.
  assert (Hcov : writer_covers w).
  { apply writer_covers_run. intros C. exfalso. apply C. reflexivity. }
  unfold step, fire_write. cbv beta iota zeta.
  destruct (writer w) eqn:Hw.
  - unfold _send_ready.
    destruct (_send_ready_loop_accepts (_buffer w) [] w)
      as (wm & Hloop & Hsent & _ & _ & _ & _ & _ & _ & _ & Hpre).
    + apply StronglySorted_lt_NoDup. apply Hf.
    + intros e He. destruct (Hq e He) as [Hp | Hc]; [exact Hp|].
      exfalso. exact (Hnc e He Hc).
    + exact Hacc.
    + rewrite app_nil_r in Hloop. rewrite Hloop. simpl.
      repeat split; auto.
  - assert (Hb : _buffer w = []).
    { destruct (_buffer w) as [|e q] eqn:E; [reflexivity|].
      exfalso. unfold writer_covers in Hcov. rewrite E in Hcov.
      specialize (Hcov ltac:(discriminate)). congruence. }
    simpl. rewrite Hb, app_nil_r. repeat split; auto.
    intros i e He. destruct i; discriminate He.
Qed.

(** X10.  Over every run of a new socket: if no queued future has been
    cancelled and the transport takes every queued message, one firing
    of write readiness puts the whole queue on the wire in queue order,
    fulfils every queued future with what the transport returned for
    its message, empties the queue and removes the writer. *)
Theorem accepted_drain_empties_queue (evs : list event) :
  let w := run evs init in
  (forall e, In e (_buffer w) -> futures w !! e_fut e <> Some Cancelled) ->
  (forall i, i < length (_buffer w) ->
     exists r, send_oracle (length (sent w) + i) = Done r) ->
  let w' := run (evs ++ [WriteReady]) init in
  _buffer w' = [] /\
  writer w' = false /\
  sent w' = sent w ++ _buffer w /\
  (forall i e, _buffer w !! i = Some e ->
     futures w' !! e_fut e
     = Some (Finished (send_oracle (length (sent w) + i)))).
Proof.
  intros w Hnc Hacc. rewrite run_app.
  exact (drain_after_run evs Hnc Hacc).
Qed.

(** X11.  A [send] that finds the queue busy is queued with the flags the
    caller gave, and that is how it goes on the wire: over every run of
    a new socket that leaves entries queued, none cancelled, a [send]
    followed by a firing that the transport accepts in full ends with a
    transport call that carries the caller's [flags] unchanged.  The
    no-wait flag is forced on the fast path only. *)
Theorem queued_send_keeps_caller_flags (evs : list event) (b : list byte)
    (flags : Z) (copy track : bool) :
  let w := run evs init in
  let fut := length (futures w) in
  b <> [] ->
  _buffer w <> [] ->
  (forall e, In e (_buffer w) -> futures w !! e_fut e <> Some Cancelled) ->
  (forall i, i <= length (_buffer w) ->
     exists r, send_oracle (length (sent w) + i) = Done r) ->
  let w' := run (evs ++ [CallSend (PyBytes b) flags copy track; WriteReady])
                init in
  sent w' = sent w ++ _buffer w ++ [Entry fut b flags copy track] /\
  futures w' !! fut
  = Some (Finished (send_oracle (length (sent w) + length (_buffer w)))) /\
  _buffer w' = [] /\
  writer w' = false.
Proof.
  intros w fut Hb Hq Hnc Hacc.
  pose proof (run_fifo evs init init_fifo) as Hf. fold w in Hf.
  assert (Hbound : forall e, In e (_buffer w) -> e_fut e < length (futures w)).
  { destruct Hf as (_ & _ & C & _). rewrite List.Forall_forall in C. exact C. }
  set (ev := CallSend (PyBytes b) flags copy track).
  set (w1 := World (_buffer w ++ [Entry fut b flags copy track])
                   (futures w ++ [Pending]) (reader w) (writer w)
                   (loop_calls w) (sent w) (recvd w) (closed w)).
  assert (E1 : step w ev = w1).
  { subst ev w1. unfold step, send. cbv beta iota.
    destruct b as [|b0 b]; [congruence|].
    cbn [Future fst snd].
    change (_buffer (set_futures (futures w ++ [Pending]) w)) with (_buffer w).
    destruct (_buffer w) as [|e0 q0]; [congruence|]. reflexivity. }
  assert (E2 : run (evs ++ [ev]) init = w1)
    by (rewrite run_app; exact E1).
  pose proof (drain_after_run (evs ++ [ev])) as Core. cbv zeta in Core.
  rewrite E2 in Core.
  replace (evs ++ [ev; WriteReady]) with ((evs ++ [ev]) ++ [WriteReady])
    by (rewrite <- app_assoc; reflexivity).
  rewrite run_app, E2.
  change (run [WriteReady] w1) with (step w1 WriteReady).
  destruct Core as (A & B & C & D).
  - intros e He. change (In e (_buffer w ++ [Entry fut b flags copy track])) in He.
    change (futures w1) with (futures w ++ [Pending]).
    apply in_app_or in He as [He | [<- | []]].
    + rewrite lookup_app_l by (apply Hbound, He). apply Hnc, He.
    + simpl. subst fut. rewrite lookup_fresh_future. discriminate.
  - change (_buffer w1) with (_buffer w ++ [Entry fut b flags copy track]).
    change (sent w1) with (sent w).
    rewrite length_app. simpl. intros i Hi. apply Hacc. lia.
  - split; [rewrite C; reflexivity|].
    split; [|split; assumption].
    apply (D (length (_buffer w)) (Entry fut b flags copy track)).
    apply list_lookup_middle. reflexivity.
Qed.

(** ** A head that would-blocks *)

Lemma write_firing_blocked w e q :
  _buffer w = e :: q ->
  writer w = true ->
  would_block (send_oracle (length (sent w))) = true ->
  step w WriteReady
  = World (e :: q) (futures w) (reader w) true (loop_calls w)
          (sent w ++ [e]) (recvd w) (closed w).
Proof.
  intros Hb Hw Hwb.
  destruct (would_block_inv _ Hwb) as (errno & Ho & Hne).
  unfold step, fire_write, _send_ready. cbv beta iota.
  rewrite Hw, Hb. simpl. rewrite Ho, Hne. simpl. rewrite Hw. reflexivity.
Qed.

(** X12.  Head-of-line blocking.  While the transport would-blocks on the
    head of the queue, each firing of write readiness calls the
    transport once, for the head, and nothing else changes: the entries
    behind the head are not attempted, no future is settled, the queue
    and the writer registration are as they were. *)
Theorem blocked_head_blocks_queue (n : nat) (w : world) (e : entry)
    (q : list entry) :
  _buffer w = e :: q ->
  writer w = true ->
  (forall i, i < n -> would_block (send_oracle (length (sent w) + i)) = true) ->
  let w' := run (replicate n WriteReady) w in
  _buffer w' = e :: q /\
  sent w' = sent w ++ replicate n e /\
  futures w' = futures w /\
  writer w' = true /\
  loop_calls w' = loop_calls w /\
  reader w' = reader w.
Proof.
  revert w. induction n as [|n IH]; intros w Hb Hw Hwb.
  - cbv zeta. simpl. rewrite app_nil_r. repeat split; auto.
  - cbn [replicate]. rewrite run_cons.
    pose proof (Hwb 0 ltac:(lia)) as H0. rewrite Nat.add_0_r in H0.
    rewrite (write_firing_blocked w e q Hb Hw H0).
    set (w1 := World _ _ _ _ _ _ _ _).
    destruct (IH w1) as (A & B & C & D & E & F);
      [reflexivity | reflexivity | |].
    + intros i Hi. subst w1; simpl. rewrite length_app; simpl.
      replace (length (sent w) + 1 + i) with (length (sent w) + S i) by lia.
      apply Hwb. lia.
    + cbv zeta. rewrite A, B, C, D, E, F. subst w1; simpl.
      rewrite <- app_assoc. repeat split; auto.
Qed.

(** ** Where the calls on the wire come from *)

Lemma send_entries d f c t w a :
  In a (sent (snd (send d f c t w)) ++ _buffer (snd (send d f c t w))) ->
  In a (sent w ++ _buffer w) \/
  exists b fl, d = PyBytes b /\ b <> [] /\
               (fl = f \/ fl = Z.lor f NOBLOCK) /\
               a = Entry (length (futures w)) b fl c t.
Proof.
  unfold send.
  destruct d as [| z | s | b | n]; try (simpl; auto; fail).
  destruct b as [|b0 b]; [simpl; auto|].
  cbn [Future fst snd].
  change (_buffer (set_futures (futures w ++ [Pending]) w)) with (_buffer w).
  assert (New : forall fl, fl = f \/ fl = Z.lor f NOBLOCK ->
    exists b' fl', PyBytes (b0 :: b) = PyBytes b' /\ b' <> [] /\
      (fl' = f \/ fl' = Z.lor f NOBLOCK) /\
      Entry (length (futures w)) (b0 :: b) fl c t
      = Entry (length (futures w)) b' fl' c t).
  { intros fl Hfl. exists (b0 :: b), fl. repeat split; auto; discriminate. }
  assert (Step : forall fl l q,
    fl = f \/ fl = Z.lor f NOBLOCK ->
    (l = sent w \/ l = sent w ++ [Entry (length (futures w)) (b0 :: b) fl c t]) ->
    (q = _buffer w \/ q = _buffer w ++ [Entry (length (futures w)) (b0 :: b) fl c t]) ->
    In a (l ++ q) ->
    In a (sent w ++ _buffer w) \/
    exists b' fl', PyBytes (b0 :: b) = PyBytes b' /\ b' <> [] /\
      (fl' = f \/ fl' = Z.lor f NOBLOCK) /\
      a = Entry (length (futures w)) b' fl' c t).
  { intros fl l q Hfl Hl Hq Hin.
    apply in_app_or in Hin as [Hin | Hin].
    - destruct Hl as [-> | ->]; [left; apply in_or_app; auto|].
      apply in_app_or in Hin as [Hin | [<- | []]];
        [left; apply in_or_app; auto | right; apply New, Hfl].
    - destruct Hq as [-> | ->]; [left; apply in_or_app; auto|].
      apply in_app_or in Hin as [Hin | [<- | []]];
        [left; apply in_or_app; auto | right; apply New, Hfl]. }
  destruct (_buffer w) as [|e0 q0] eqn:Eq.
  - unfold transport_send, set_result, set_exception, settle. simpl.
    rewrite lookup_fresh_future.
    destruct (has_noblock f);
      destruct (send_oracle (length (sent w))) as [r | [errno | t' | | o]];
      simpl; try destruct (errno_ne_eagain errno); simpl; rewrite ?Eq;
      intros Hin;
      first [ apply (Step f _ _ (or_introl eq_refl)
                       (or_intror eq_refl) (or_introl eq_refl)); exact Hin
            | apply (Step (Z.lor f NOBLOCK) _ _ (or_intror eq_refl)
                       (or_intror eq_refl) (or_introl eq_refl)); exact Hin
            | apply (Step (Z.lor f NOBLOCK) _ _ (or_intror eq_refl)
                       (or_intror eq_refl) (or_intror eq_refl)); exact Hin ].
  - simpl. rewrite ?Eq. intros Hin.
    apply (Step f _ _ (or_introl eq_refl) (or_introl eq_refl)
             (or_intror eq_refl)); exact Hin.
Qed.

Lemma _send_ready_entries w a :
  In a (sent (snd (_send_ready w)) ++ _buffer (snd (_send_ready w))) ->
  In a (sent w ++ _buffer w).
Proof.
  unfold _send_ready.
  destruct (_send_ready_loop_shape (_buffer w) w) as (k & _ & Hs & Hb).
  cbv zeta in *. rewrite Hs, Hb. intros Hin.
  apply in_or_app. apply in_app_or in Hin as [Hin | Hin].
  - apply in_app_or in Hin as [Hin | Hin]; [left; exact Hin|].
    right. rewrite <- (take_drop k (_buffer w)). apply in_or_app; left; exact Hin.
  - right. eapply In_drop; exact Hin.
Qed.

Lemma sent_by_more evs ev a :
  sent_by NOBLOCK evs a -> sent_by NOBLOCK (evs ++ [ev]) a.
Proof.
  intros (Hd & fl & Hin & Hfl). split; [exact Hd|].
  exists fl. split; [apply in_or_app; left; exact Hin | exact Hfl].
Qed.

(** X13.  Over every run of a new socket, every call of the transport's
    [send] and every queued entry comes from a [send] call of the run:
    the payload, [copy] and [track] are those of the call, the payload
    is not empty, and the flags are the caller's, as they are or with
    the no-wait flag added.  The adapter sends nothing of its own and
    alters no payload. *)
Theorem wire_calls_come_from_sends (evs : list event) (a : entry) :
  let w := run evs init in
  In a (sent w ++ _buffer w) ->
  sent_by NOBLOCK evs a.
Proof.
  cbv zeta. revert a.
  induction evs as [|ev evs IH] using rev_ind; intros a Ha; [destruct Ha|].
  rewrite run_app in Ha.
  change (run [ev] (run evs init)) with (step (run evs init) ev) in Ha.
  set (w := run evs init) in *.
  assert (Old : In a (sent w ++ _buffer w) -> sent_by NOBLOCK (evs ++ [ev]) a).
  { intros H. apply sent_by_more, IH, H. }
  assert (Frame : forall w', write_frame w w' ->
            In a (sent w' ++ _buffer w') -> sent_by NOBLOCK (evs ++ [ev]) a).
  { intros w' (A & B & _) H. rewrite A, B in H. apply Old, H. }
  destruct ev as [d f c t | f c t | | | fut |]; unfold step in Ha;
    cbv beta iota in Ha.
  - apply send_entries in Ha as [Ha | (b & fl & -> & Hb & Hfl & ->)];
      [apply Old, Ha|].
    split; [exact Hb|]. exists f. split.
    + apply in_or_app. right. left. reflexivity.
    + exact Hfl.
  - eapply Frame; [apply recv_write_frame | exact Ha].
  - unfold fire_write in Ha. destruct (writer w); [|apply Old, Ha].
    apply Old, _send_ready_entries, Ha.
  - unfold fire_read in Ha. destruct (reader w) as [cb|]; [|apply Old, Ha].
    eapply Frame; [apply _recv_write_frame | exact Ha].
  - eapply Frame; [apply cancel_write_frame | exact Ha].
  - apply Old, Ha.
Qed.

(** ** What a finished future holds *)

Lemma answers_only_ext w w' :
  (forall f o, futures w' !! f = Some (Finished o) ->
               futures w !! f = Some (Finished o)) ->
  (exists l, sent w' = sent w ++ l) ->
  length (recvd w) <= length (recvd w') ->
  answers_only send_oracle recv_oracle w ->
  answers_only send_oracle recv_oracle w'.
Proof.
  intros Hfut [l Hs] Hr H f o Hf.
  destruct (H f o (Hfut f o Hf)) as [(i & a & Hi & Ha & Ho) | (j & Hj & Ho)].
  - left. exists i, a. split; [|auto].
    rewrite Hs. apply lookup_app_l_Some, Hi.
  - right. exists j. split; [lia | exact Ho].
Qed.

Lemma settle_answers fut r w :
  answers_only send_oracle recv_oracle w ->
  (exists i a, sent w !! i = Some a /\ e_fut a = fut /\ send_oracle i = r) \/
  (exists j, j < length (recvd w) /\ recv_oracle j = r) ->
  answers_only send_oracle recv_oracle (snd (settle fut r w)).
Proof.
  intros H Hr.
  destruct (settle_cases fut r w) as [[Hp ->] | [_ ->]]; [|exact H].
  intros f o Hf. simpl in *.
  destruct (Nat.eq_dec f fut) as [-> | Hne].
  - rewrite list_lookup_insert_eq in Hf by (eapply lookup_lt_Some; exact Hp).
    inversion Hf; subst o. exact Hr.
  - rewrite list_lookup_insert_ne in Hf by congruence. exact (H f o Hf).
Qed.

Lemma _send_ready_loop_answers q : forall w,
  answers_only send_oracle recv_oracle w ->
  answers_only send_oracle recv_oracle (snd (_send_ready_loop q w)).
Proof.
  induction q as [|e q IH]; intros w H; simpl.
  - eapply answers_only_ext; [| | |exact H]; simpl; auto.
    exists []. rewrite app_nil_r. reflexivity.
  - unfold set_result, set_exception.
    set (w2 := World q _ _ _ _ _ _ _).
    assert (H2 : answers_only send_oracle recv_oracle w2).
    { eapply answers_only_ext; [| | |exact H]; subst w2; simpl; eauto. }
    assert (Mine : exists i a, sent w2 !! i = Some a /\ e_fut a = e_fut e /\
                               send_oracle i = send_oracle (length (sent w))).
    { exists (length (sent w)), e. subst w2; simpl.
      split; [apply list_lookup_middle; reflexivity | auto]. }
    destruct (send_oracle (length (sent w))) as [r | [errno | t | | o]] eqn:Eo;
      try (apply settle_answers; [exact H2 | left; exact Mine]).
    + destruct (settle_cases (e_fut e) (Done r) w2) as [[Hp Hs] | [Hp Hs]].
      * pose proof (settle_answers (e_fut e) (Done r) w2 H2 (or_introl Mine))
          as H3.
        rewrite Hs in *. simpl in H3. apply IH. exact H3.
      * rewrite Hs.
        destruct (settle_cases (e_fut e) (Fails InvalidStateError) w2)
          as [[Hp' _] | [_ ->]]; [congruence | exact H2].
    + destruct (errno_ne_eagain errno).
      * apply settle_answers; [exact H2 | left; exact Mine].
      * eapply answers_only_ext; [| | |exact H2]; simpl; auto.
        exists []. rewrite app_nil_r. reflexivity.
Qed.

Lemma send_answers data flags copy track w :
  answers_only send_oracle recv_oracle w ->
  answers_only send_oracle recv_oracle (snd (send data flags copy track w)).
Proof.
  intros H. unfold send.
  destruct data as [| z | s | b | n]; try exact H.
  destruct b as [|b0 b]; [exact H|].
  cbn [Future fst snd].
  change (_buffer (set_futures (futures w ++ [Pending]) w)) with (_buffer w).
  assert (Hnew : forall f o, (futures w ++ [Pending]) !! f = Some (Finished o) ->
                             futures w !! f = Some (Finished o)).
  { intros f o Hf. destruct (Nat.lt_ge_cases f (length (futures w))) as [Hlt | Hge].
    - rewrite lookup_app_l in Hf by exact Hlt. exact Hf.
    - rewrite lookup_app_r in Hf by exact Hge.
      destruct (f - length (futures w)); simpl in Hf; discriminate. }
  destruct (_buffer w) as [|e0 q0] eqn:Eq.
  - unfold transport_send, set_result, set_exception.
    assert (Att : forall fl,
      let e := Entry (length (futures w)) (b0 :: b) fl copy track in
      let w2 := World (_buffer (set_futures (futures w ++ [Pending]) w))
                      (futures (set_futures (futures w ++ [Pending]) w))
                      (reader (set_futures (futures w ++ [Pending]) w))
                      (writer (set_futures (futures w ++ [Pending]) w))
                      (loop_calls (set_futures (futures w ++ [Pending]) w))
                      (sent (set_futures (futures w ++ [Pending]) w) ++ [e])
                      (recvd (set_futures (futures w ++ [Pending]) w))
                      (closed (set_futures (futures w ++ [Pending]) w)) in
      answers_only send_oracle recv_oracle w2 /\
      forall r, send_oracle (length (sent w)) = r ->
        answers_only send_oracle recv_oracle
          (snd (settle (length (futures w)) r w2))).
    { intros fl e w2.
      assert (H2 : answers_only send_oracle recv_oracle w2).
      { eapply answers_only_ext; [| | |exact H]; subst w2; simpl; eauto. }
      split; [exact H2|]. intros r Hr. apply settle_answers; [exact H2|].
      left. exists (length (sent w)), e. subst w2 e; simpl.
      split; [apply list_lookup_middle; reflexivity | auto]. }
    destruct (has_noblock flags).
    + destruct (Att flags) as [H2 Hs]. cbv zeta in H2, Hs.
      simpl sent at 1. 
      destruct (send_oracle (length (sent w))) as [r | x] eqn:Eo.
      * specialize (Hs _ eq_refl).
        destruct (settle _ _ _) as [[u|x] w3]; exact Hs.
      * exact H2.
    + destruct (Att (Z.lor flags NOBLOCK)) as [H2 Hs]. cbv zeta in H2, Hs.
      simpl sent at 1.
      destruct (send_oracle (length (sent w))) as [r | [errno | t | | o]] eqn:Eo;
        try exact H2.
      * specialize (Hs _ eq_refl).
        destruct (settle _ _ _) as [[u|x] w3]; exact Hs.
      * destruct (errno_ne_eagain errno).
        -- specialize (Hs _ eq_refl).
           destruct (settle _ _ _) as [[u|x] w3]; exact Hs.
        -- eapply answers_only_ext; [| | |exact H2]; simpl; auto.
           exists []. rewrite app_nil_r. reflexivity.
  - eapply answers_only_ext; [| | |exact H]; simpl; auto.
    exists []. rewrite app_nil_r. reflexivity.
Qed.

Lemma _recv_answers fut registered flags copy track w :
  answers_only send_oracle recv_oracle w ->
  answers_only send_oracle recv_oracle
    (snd (_recv fut registered flags copy track w)).
Proof.
  intros H. unfold _recv.
  set (w1 := if registered then remove_reader w else w).
  assert (H1 : answers_only send_oracle recv_oracle w1).
  { subst w1. destruct registered; [|exact H].
    eapply answers_only_ext; [| | |exact H]; simpl; auto.
    exists []. rewrite app_nil_r. reflexivity. }
  destruct (cancelled fut w1); [exact H1|].
  unfold transport_recv.
  set (w2 := World _ _ _ _ _ _ _ _).
  assert (H2 : answers_only send_oracle recv_oracle w2).
  { eapply answers_only_ext; [| | |exact H1]; subst w2; simpl; auto.
    - exists []. rewrite app_nil_r. reflexivity.
    - rewrite length_app. lia. }
  assert (Mine : forall r, recv_oracle (length (recvd w1)) = r ->
             answers_only send_oracle recv_oracle (snd (settle fut r w2))).
  { intros r Hr. apply settle_answers; [exact H2|].
    right. exists (length (recvd w1)). subst w2; simpl.
    rewrite length_app. simpl. split; [lia | exact Hr]. }
  unfold set_result, set_exception.
  destruct (recv_oracle (length (recvd w1))) as [v | [errno | t | | o]] eqn:Eo;
    try (apply Mine; reflexivity).
  destruct (errno_ne_eagain errno); [apply Mine; reflexivity|].
  eapply answers_only_ext; [| | |exact H2]; simpl; auto.
  exists []. rewrite app_nil_r. reflexivity.
Qed.

Lemma recv_answers flags copy track w :
  answers_only send_oracle recv_oracle w ->
  answers_only send_oracle recv_oracle (snd (recv flags copy track w)).
Proof.
  intros H. unfold recv, transport_recv.
  assert (Att : forall fl,
    answers_only send_oracle recv_oracle
      (World (_buffer w) (futures w) (reader w) (writer w) (loop_calls w)
             (sent w) (recvd w ++ [RecvCall fl copy track]) (closed w))).
  { intros fl. eapply answers_only_ext; [| | |exact H]; simpl; auto.
    - exists []. rewrite app_nil_r. reflexivity.
    - rewrite length_app. lia. }
  destruct (has_noblock flags).
  { destruct (recv_oracle (length (recvd w))); apply Att. }
  destruct (recv_oracle (length (recvd w))) as [v | [errno | t | | o]];
    try apply Att.
  destruct (errno_ne_eagain errno); [apply Att|].
  cbn [Future].
  match goal with
  | |- context [_recv ?f ?r ?l ?c ?t ?w0] =>
      assert (H3 : answers_only send_oracle recv_oracle (snd (_recv f r l c t w0)));
      [apply _recv_answers | destruct (_recv f r l c t w0) as [[u|e] w3]; exact H3]
  end.
  eapply answers_only_ext; [| | |exact (Att (Z.lor flags NOBLOCK))];
    simpl; auto.
  - intros f o Hf.
    destruct (Nat.lt_ge_cases f (length (futures w))) as [Hlt | Hge].
    + rewrite lookup_app_l in Hf by exact Hlt. exact Hf.
    + rewrite lookup_app_r in Hf by exact Hge.
      destruct (f - length (futures w)); simpl in Hf; discriminate.
  - exists []. rewrite app_nil_r. reflexivity.
Qed.

Lemma cancel_answers fut w :
  answers_only send_oracle recv_oracle w ->
  answers_only send_oracle recv_oracle (cancel fut w).
Proof.
  intros H. unfold cancel.
  destruct (futures w !! fut) as [[| |o]|] eqn:E; try exact H.
  eapply answers_only_ext; [| | |exact H]; simpl; auto.
  - intros f o Hf. destruct (Nat.eq_dec f fut) as [-> | Hne].
    + rewrite list_lookup_insert_eq in Hf by (eapply lookup_lt_Some; exact E).
      discriminate.
    + rewrite list_lookup_insert_ne in Hf by congruence. exact Hf.
  - exists []. rewrite app_nil_r. reflexivity.
Qed.

(** X14.  Over every run of a new socket, a finished future holds an answer
    the transport really gave: the answer to a [send] call made for the
    entry of that very future, or the answer to a [recv] call.  The
    adapter makes up no result and no error of its own, and a send's
    future never receives the answer given to another message. *)
Theorem finished_future_holds_answer (evs : list event) (f : nat)
    (o : outcome) :
  let w := run evs init in
  futures w !! f = Some (Finished o) ->
  (exists i a, sent w !! i = Some a /\ e_fut a = f /\ send_oracle i = o) \/
  (exists j, j < length (recvd w) /\ recv_oracle j = o).
Proof.
  cbv zeta. revert f o.
  change (answers_only send_oracle recv_oracle (run evs init)).
  assert (G : forall w, answers_only send_oracle recv_oracle w ->
                        answers_only send_oracle recv_oracle (run evs w)).
  { induction evs as [|ev evs IH]; intros w H; [exact H|].
    rewrite run_cons. apply IH.
    destruct ev as [d fl c t | fl c t | | | fut |]; unfold step; cbv beta iota.
    - apply send_answers; exact H.
    - apply recv_answers; exact H.
    - unfold fire_write. destruct (writer w); [|exact H].
      apply _send_ready_loop_answers; exact H.
    - unfold fire_read. destruct (reader w) as [cb|]; [|exact H].
      apply _recv_answers; exact H.
    - apply cancel_answers; exact H.
    - eapply answers_only_ext; [| | |exact H]; simpl; auto.
      exists []. rewrite app_nil_r. reflexivity. }
  apply G. intros f o Hf. destruct f; discriminate Hf.
Qed.

(** X7.  Over every run of a new socket, while an entry is queued the writer
    is registered: a queued send is never left without the callback
    that will drain it. *)
Theorem queued_entry_has_writer (evs : list event) :
  let w := run evs init in
  _buffer w <> [] -> writer w = true.
Proof.
  cbv zeta. apply writer_covers_run.
  intros C. exfalso. apply C. reflexivity.
Qed.

End AdapterProperties.

(** * Runs on the library's constants *)


Example three_sends_queued (so ro : nat -> outcome) :
  so 0 = again ->
  zrun so ro three_sends init
  = World [entry1; entry2; entry3] [Pending; Pending; Pending] None true
          [AddWriter] [entry1] [] false.
Proof. intros H. unfold zrun, run. simpl. rewrite H. reflexivity. Qed.

(** The transport would-blocks twice on the first message, then takes
    all three: the calls on the wire are for futures 0, 0, 0, 1, 2. *)
Example three_sends_served_in_order :
  let so := answers [again; again; Done PyNone; Done PyNone; Done PyNone] in
  let w := zrun so (answers []) (three_sends ++ [WriteReady; WriteReady]) init in
  map e_fut (sent w) = [0; 0; 0; 1; 2] /\
  _buffer w = [] /\ writer w = false /\
  futures w = [Finished (Done PyNone); Finished (Done PyNone); Finished (Done PyNone)].
Proof. repeat split; reflexivity. Qed.


Lemma drain_fulfils_until_blocked_witness :
  let w := zrun takes_two (answers []) three_sends init in
  let w' := snd (_send_ready zmq_EAGAIN takes_two w) in
  _buffer w = [entry1; entry2] ++ [entry3] /\
  futures w' !! 0 = Some (Finished (Done PyNone)) /\
  futures w' !! 1 = Some (Finished (Done PyNone)) /\
  futures w' !! 2 = Some Pending /\
  sent w' = sent w ++ [entry1; entry2] ++ [entry3] /\
  writer w' = true /\
  _buffer w' = [entry3].
Proof.
  set (w := zrun takes_two (answers []) three_sends init).
  assert (H1 : _buffer w = [entry1; entry2] ++ [entry3]) by reflexivity.
  assert (H2 : NoDup (map e_fut [entry1; entry2])).
  { apply (bool_decide_unpack _). vm_compute. exact I. }
  assert (H3 : forall e, In e [entry1; entry2] ->
                         futures w !! e_fut e = Some Pending).
  { intros e [<- | [<- | []]]; reflexivity. }
  assert (H4 : forall i, i < length [entry1; entry2] ->
             exists r, takes_two (length (sent w) + i) = Done r).
  { intros [|[|i]] Hi; [exists PyNone; reflexivity .. | simpl in Hi; lia]. }
  assert (H5 : [entry3] = [] \/
               exists exc, takes_two (length (sent w) + length [entry1; entry2])
                           = Fails exc).
  { right. exists (ZMQError zmq_EAGAIN). reflexivity. }
  destruct (drain_fulfils_until_blocked zmq_EAGAIN takes_two w
              [entry1; entry2] [entry3] H1 H2 H3 H4 H5) as (A & B & C & D).
  cbv zeta. split; [exact H1|].
  split; [exact (A 0 entry1 eq_refl)|].
  split; [exact (A 1 entry2 eq_refl)|].
  split; [reflexivity|].
  split; [exact B|].
  split; [exact C|].
  exact D.
Defined.


Lemma drain_error_is_local_witness :
  let w := zrun refuses_second (answers []) three_sends init in
  exists w',
    _send_ready zmq_EAGAIN refuses_second w = (Ret tt, w') /\
    futures w' !! 1 = Some (Finished (Fails (ZMQError EHOSTUNREACH))) /\
    _buffer w' = [entry3] /\
    sent w' = sent w ++ [entry1] ++ [entry2] /\
    writer w' = true /\
    futures w' !! 2 = Some Pending.
Proof.
  set (w := zrun refuses_second (answers []) three_sends init).
  assert (H1 : _buffer w = [entry1] ++ entry2 :: [entry3]) by reflexivity.
  assert (H2 : NoDup (map e_fut (_buffer w))).
  { apply (bool_decide_unpack _). vm_compute. exact I. }
  assert (H3 : forall x, In x ([entry1] ++ [entry2]) ->
                         futures w !! e_fut x = Some Pending).
  { intros e [<- | [<- | []]]; reflexivity. }
  assert (H4 : forall i, i < length [entry1] ->
             exists r, refuses_second (length (sent w) + i) = Done r).
  { intros [|i] Hi; [exists PyNone; reflexivity | simpl in Hi; lia]. }
  assert (H5 : refuses_second (length (sent w) + length [entry1])
               = Fails (ZMQError EHOSTUNREACH)) by reflexivity.
  assert (H6 : would_block zmq_EAGAIN (Fails (ZMQError EHOSTUNREACH)) = false)
    by reflexivity.
  destruct (drain_error_is_local zmq_EAGAIN refuses_second w
              [entry1] [entry3] entry2 (ZMQError EHOSTUNREACH)
              H1 H2 H3 H4 H5 H6)
    as (w' & R & F & B & S & W & _ & _ & K & _ & _).
  exists w'. split; [exact R|]. split; [exact F|]. split; [exact B|].
  split; [exact S|]. split; [exact W|].
  exact (eq_trans (K entry3 (or_introl eq_refl)) eq_refl).
Defined.

(** ** Receives *)


Lemma recv_attempts_and_registrations_witness :
  let w' := zrun (answers []) delivers_third
                 (CallRecv 0 true false :: replicate 1 ReadReady) init in
  read_registrations (loop_calls w') = 1 /\
  length (recvd w') = 3 /\
  reader w' = None /\
  fst (recv zmq_NOBLOCK zmq_EAGAIN delivers_third 0 true false init)
    = Ret (Awaits 0) /\
  futures w' !! 0 = Some (Finished (Done payload)).
Proof.
  assert (H1 : has_noblock zmq_NOBLOCK 0 = false) by reflexivity.
  assert (H2 : reader init = None) by reflexivity.
  assert (H3 : forall i, i < 2 ->
     would_block zmq_EAGAIN (delivers_third (length (recvd init) + i)) = true).
  { intros [|[|i]] Hi; [reflexivity .. | lia]. }
  assert (H4 : delivers_third (length (recvd init) + 2) = Done payload)
    by reflexivity.
  assert (H5 : 2 - 1 <= 1) by lia.
  destruct (recv_attempts_and_registrations zmq_NOBLOCK zmq_EAGAIN
              (answers []) delivers_third 2 1 0 true false payload init
              H1 H2 H3 H4 H5) as (A & B & C & _ & D).
  destruct (D ltac:(lia)) as [D1 D2].
  cbv zeta. split; [exact A|].
  split; [exact (f_equal (@length recv_call) B)|].
  split; [exact C|]. split; [exact D1 | exact D2].
Defined.

(** Against C4 as stated, at [k = 1]: one would-block, then the data.
    The transport's [recv] is called twice, and [add_reader] not at
    all, however often read readiness fires afterwards. *)
Lemma recv_one_would_block_registers_nothing :
  let w' := zrun (answers []) delivers_second
                 (CallRecv 0 true false :: replicate 3 ReadReady) init in
  has_noblock zmq_NOBLOCK 0 = false /\
  would_block zmq_EAGAIN (delivers_second 0) = true /\
  delivers_second 1 = Done payload /\
  length (recvd w') = 2 /\
  futures w' !! 0 = Some (Finished (Done payload)) /\
  read_registrations (loop_calls w') = 0 /\
  read_registrations (loop_calls w') <> 1.
Proof. cbv zeta. repeat split; try reflexivity. vm_compute. discriminate. Qed.


Lemma recv_cancel_skips_retry_witness :
  let w' := zrun (answers []) (answers [again; again; Done payload])
                 (CancelFuture 0 :: replicate 2 ReadReady) waiting_recv in
  reader waiting_recv = Some waiting_cb /\
  futures waiting_recv !! 0 = Some Pending /\
  futures w' !! 0 = Some Cancelled /\
  recvd w' = recvd waiting_recv /\
  reader w' = None.
Proof.
  assert (H1 : reader waiting_recv = Some waiting_cb) by reflexivity.
  assert (H2 : futures waiting_recv !! cb_fut waiting_cb = Some Pending)
    by reflexivity.
  destruct (recv_cancel_skips_retry zmq_NOBLOCK zmq_EAGAIN (answers [])
              (answers [again; again; Done payload]) waiting_recv waiting_cb 2
              H1 H2) as (_ & A & B & C).
  destruct (C ltac:(lia)) as [C1 _].
  cbv zeta. split; [exact H1|]. split; [exact H2|].
  split; [exact A|]. split; [exact B | exact C1].
Defined.

(** ** Sends *)

Lemma send_asserts_bytes_witness :
  (forall b, PyStr [x68; x69] <> PyBytes b) /\
  send zmq_NOBLOCK zmq_EAGAIN (answers [Done PyNone]) (PyStr [x68; x69])
       0 true false init
  = (Raise (AssertionError (PyStr [x68; x69])), init).
Proof.
  assert (H : forall b, PyStr [x68; x69] <> PyBytes b)
    by (intros b; discriminate).
  split; [exact H|].
  exact (send_asserts_bytes zmq_NOBLOCK zmq_EAGAIN (answers [Done PyNone])
           (PyStr [x68; x69]) 0 true false init H).
Defined.

Lemma send_returns_handle_witness :
  zmq_NOBLOCK <> 0%Z /\
  let out := send zmq_NOBLOCK zmq_EAGAIN (answers []) (PyBytes [x01])
                  0 true false init in
  fst out = Ret (Some 0) /\
  futures (snd out) !! 0 = Some Pending /\
  _buffer (snd out) = [entry1] /\
  writer (snd out) = true.
Proof.
  assert (H : zmq_NOBLOCK <> 0%Z) by discriminate.
  split; [exact H|].
  destruct (send_returns_handle zmq_NOBLOCK zmq_EAGAIN (answers []) [x01]
              0 true false init H) as (_ & _ & _ & _ & A & _).
  exact (A ltac:(discriminate) eq_refl eq_refl eq_refl).
Defined.

(** Against C8 as stated: an empty payload gets no completion handle
    back. *)
Lemma send_empty_returns_no_handle :
  send zmq_NOBLOCK zmq_EAGAIN (answers [Done PyNone]) (PyBytes [])
       0 true false init
  = (Ret None, init) /\
  ~ exists fut,
      fst (send zmq_NOBLOCK zmq_EAGAIN (answers [Done PyNone]) (PyBytes [])
                0 true false init)
      = Ret (Some fut).
Proof. split; [reflexivity|]. intros [fut H]. discriminate H. Qed.

(** The other case C8 names: the immediate attempt fails for good.  The
    error is stored in the new future, and the call returns [None]. *)
Example send_fast_path_error_returns_none :
  send zmq_NOBLOCK zmq_EAGAIN (answers [Fails (ZMQError EHOSTUNREACH)])
       (PyBytes [x01]) 0 true false init
  = (Ret None,
     World [] [Finished (Fails (ZMQError EHOSTUNREACH))] None false []
           [entry1] [] false).
Proof. reflexivity. Qed.

(** ** Close *)

(** Against C3 as stated: a send is queued and a receive waits; after
    [close] both futures are still pending, the entry is still queued
    and both registrations are still held. *)
Lemma close_leaves_handles_pending :
  let w' := zrun (answers []) (answers [])
                 [CallSend (PyBytes [x01]) 0 true false;
                  CallRecv 0 true false; CallClose] init in
  futures w' = [Pending; Pending] /\
  _buffer w' = [entry1] /\
  writer w' = true /\
  reader w' = Some (RecvCb 1 1 true false) /\
  ~ (Forall (fun f => f <> Pending) (futures w') /\
     writer w' = false /\ reader w' = None).
Proof.
  cbv zeta. repeat split; try reflexivity.
  intros (_ & H & _). vm_compute in H. discriminate H.
Qed.

(** ** The writer after a failed drain *)

(** C6 fails on this run: one send is queued, and the firing that
    drains it meets an error that is not a would-block.  The queue is
    empty and the writer is still registered; a send that would-blocks
    next calls [add_writer] a second time, no [remove_writer] between. *)
Theorem writer_armed_with_empty_queue :
  let so := answers [again; Fails (ZMQError EHOSTUNREACH); again] in
  let w := zrun so (answers [])
                [CallSend (PyBytes [x01]) 0 true false; WriteReady] init in
  let w2 := zrun so (answers []) [CallSend (PyBytes [x02]) 0 true false] w in
  _buffer w = [] /\
  writer w = true /\
  futures w = [Finished (Fails (ZMQError EHOSTUNREACH))] /\
  loop_calls w = [AddWriter] /\
  loop_calls w2 = [AddWriter; AddWriter].
Proof. repeat split; reflexivity. Qed.

(** ** A cancelled send *)

(** C9 fails on this run: a send is queued, its future is cancelled,
    write readiness fires.  The drain calls the transport for the
    cancelled entry, which the transport takes; [set_result] and then
    [set_exception] raise [InvalidStateError], which leaves
    [_send_ready]; the entry behind it is not attempted and the writer
    is still registered. *)
Theorem cancelled_send_is_attempted :
  let so := answers [again; Done PyNone; Done PyNone] in
  let w := zrun so (answers [])
                [CallSend (PyBytes [x01]) 0 true false;
                 CallSend (PyBytes [x02]) zmq_NOBLOCK true false;
                 CancelFuture 0] init in
  let out := fire_write zmq_EAGAIN so w in
  futures w = [Cancelled; Pending] /\
  sent w = [entry1] /\
  fst out = Raise InvalidStateError /\
  sent (snd out) = [entry1; entry1] /\
  _buffer (snd out) = [entry2] /\
  futures (snd out) = [Cancelled; Pending] /\
  writer (snd out) = true.
Proof. repeat split; reflexivity. Qed.

(** * The further properties on the library's constants *)

Lemma answers_nil_again (n : nat) : answers [] n = again.
Proof. destruct n; reflexivity. Qed.

Lemma recv_nowait_is_direct_witness :
  has_noblock zmq_NOBLOCK zmq_NOBLOCK = true /\
  let out := recv zmq_NOBLOCK zmq_EAGAIN (answers []) zmq_NOBLOCK true false init in
  fst out = Raise (ZMQError zmq_EAGAIN) /\
  recvd (snd out) = [RecvCall zmq_NOBLOCK true false] /\
  futures (snd out) = [] /\
  reader (snd out) = None /\
  loop_calls (snd out) = [].
Proof.
  assert (H : has_noblock zmq_NOBLOCK zmq_NOBLOCK = true) by reflexivity.
  split; [exact H|].
  destruct (recv_nowait_is_direct zmq_NOBLOCK zmq_EAGAIN (answers [])
              zmq_NOBLOCK true false init H) as (A & B & C & D & E & _).
  cbv zeta. repeat split; assumption.
Defined.

Lemma recv_calls_never_block_witness :
  zmq_NOBLOCK <> 0%Z /\
  Forall (fun c => has_noblock zmq_NOBLOCK (rc_flags c) = true)
    (recvd (run zmq_NOBLOCK zmq_EAGAIN (answers []) delivers_third
                [CallRecv 0 true false; ReadReady; ReadReady] init)).
Proof.
  assert (H : zmq_NOBLOCK <> 0%Z) by discriminate.
  split; [exact H|].
  exact (proj1 (recv_calls_never_block zmq_NOBLOCK zmq_EAGAIN (answers [])
                  delivers_third
                  [CallRecv 0 true false; ReadReady; ReadReady] H)).
Defined.

Lemma recv_error_after_blocks_witness :
  let w' := run zmq_NOBLOCK zmq_EAGAIN (answers []) fails_third
                (CallRecv 0 true false :: replicate 1 ReadReady) init in
  length (recvd w') = 3 /\
  reader w' = None /\
  read_registrations (loop_calls w') = 1 /\
  futures w' !! 0 = Some (Finished (Fails (ZMQError EHOSTUNREACH))).
Proof.
  assert (H1 : has_noblock zmq_NOBLOCK 0 = false) by reflexivity.
  assert (H2 : reader init = None) by reflexivity.
  assert (H3 : forall i, i < 2 ->
     would_block zmq_EAGAIN (fails_third (length (recvd init) + i)) = true).
  { intros [|[|i]] Hi; [reflexivity .. | lia]. }
  assert (H4 : fails_third (length (recvd init) + 2)
               = Fails (ZMQError EHOSTUNREACH)) by reflexivity.
  assert (H5 : would_block zmq_EAGAIN (Fails (ZMQError EHOSTUNREACH)) = false)
    by reflexivity.
  assert (H6 : 2 - 1 <= 1) by lia.
  destruct (recv_error_after_blocks zmq_NOBLOCK zmq_EAGAIN (answers [])
              fails_third 2 1 0 true false (ZMQError EHOSTUNREACH) init
              H1 H2 H3 H4 H5 H6) as (A & B & C & _ & D).
  destruct (D ltac:(lia)) as [_ D2].
  cbv zeta. split; [exact (f_equal (@length recv_call) A)|].
  split; [exact B|]. split; [exact C | exact D2].
Defined.

Lemma recv_spurious_readiness_witness :
  let w' := run zmq_NOBLOCK zmq_EAGAIN (answers []) (answers [])
                (CallRecv 0 true false :: replicate 3 ReadReady) init in
  futures w' !! 0 = Some Pending /\
  reader w' = Some waiting_cb /\
  length (recvd w') = 5 /\
  read_registrations (loop_calls w') = 4.
Proof.
  assert (H1 : has_noblock zmq_NOBLOCK 0 = false) by reflexivity.
  assert (H2 : forall i, i < 3 + 2 ->
     would_block zmq_EAGAIN (answers [] (length (recvd init) + i)) = true).
  { intros i _. rewrite answers_nil_again. reflexivity. }
  destruct (recv_spurious_readiness zmq_NOBLOCK zmq_EAGAIN (answers [])
              (answers []) 3 0 true false init H1 H2) as (_ & A & B & C & D).
  cbv zeta. split; [exact A|]. split; [exact B|].
  split; [exact (f_equal (@length recv_call) C) | exact D].
Defined.

Lemma second_recv_takes_over_witness :
  let w' := run zmq_NOBLOCK zmq_EAGAIN (answers []) delivers_fifth
                (CallRecv 0 true false :: replicate 2 ReadReady) waiting_recv in
  reader waiting_recv = Some waiting_cb /\
  futures w' !! cb_fut waiting_cb = Some Pending /\
  reader w' <> Some waiting_cb.
Proof.
  assert (H1 : has_noblock zmq_NOBLOCK 0 = false) by reflexivity.
  assert (H2 : reader waiting_recv = Some waiting_cb) by reflexivity.
  assert (H3 : futures waiting_recv !! cb_fut waiting_cb = Some Pending)
    by reflexivity.
  assert (H4 : would_block zmq_EAGAIN
                 (delivers_fifth (length (recvd waiting_recv))) = true)
    by reflexivity.
  assert (H5 : would_block zmq_EAGAIN
                 (delivers_fifth (length (recvd waiting_recv) + 1)) = true)
    by reflexivity.
  destruct (second_recv_takes_over zmq_NOBLOCK zmq_EAGAIN (answers [])
              delivers_fifth 2 0 true false waiting_recv waiting_cb
              H1 H2 H3 H4 H5) as (A & B & _).
  cbv zeta. split; [exact H2|]. split; [exact A | exact B].
Defined.

Lemma paths_are_separate_witness :
  let rd := [CallRecv 0 true false; ReadReady; CancelFuture 0; CallClose] in
  let w1 := run zmq_NOBLOCK zmq_EAGAIN takes_two delivers_third rd three_queued in
  let w2 := run zmq_NOBLOCK zmq_EAGAIN takes_two delivers_third
                sends_then_firing waiting_recv in
  (_buffer w1 = _buffer three_queued /\ sent w1 = sent three_queued /\
   writer w1 = writer three_queued) /\
  (reader w2 = reader waiting_recv /\ recvd w2 = recvd waiting_recv /\
   read_registrations (loop_calls w2)
   = read_registrations (loop_calls waiting_recv)).
Proof.
  cbv zeta.
  destruct (paths_are_separate zmq_NOBLOCK zmq_EAGAIN takes_two delivers_third
              [CallRecv 0 true false; ReadReady; CancelFuture 0; CallClose]
              three_queued) as [A _].
  destruct (paths_are_separate zmq_NOBLOCK zmq_EAGAIN takes_two delivers_third
              sends_then_firing waiting_recv) as [_ B].
  split; [exact (A eq_refl) | exact (B eq_refl)].
Defined.

Lemma queued_entry_has_writer_witness :
  let w := run zmq_NOBLOCK zmq_EAGAIN (answers []) (answers []) three_sends init in
  _buffer w <> [] /\ writer w = true.
Proof.
  assert (H : _buffer (run zmq_NOBLOCK zmq_EAGAIN (answers []) (answers [])
                           three_sends init) <> []) by discriminate.
  cbv zeta. split; [exact H|].
  exact (queued_entry_has_writer zmq_NOBLOCK zmq_EAGAIN (answers [])
           (answers []) three_sends H).
Defined.

Lemma answered_call_is_not_repeated_witness :
  let w := run zmq_NOBLOCK zmq_EAGAIN retried_then_taken (answers [])
               sends_then_two_firings init in
  sent w !! 2 = Some entry1 /\
  sent w !! 3 = Some entry2 /\
  would_block zmq_EAGAIN (retried_then_taken 2) = false /\
  e_fut entry1 < e_fut entry2.
Proof.
  assert (H1 : sent (run zmq_NOBLOCK zmq_EAGAIN retried_then_taken (answers [])
                         sends_then_two_firings init) !! 2
               = Some entry1) by (vm_compute; reflexivity).
  assert (H2 : sent (run zmq_NOBLOCK zmq_EAGAIN retried_then_taken (answers [])
                         sends_then_two_firings init) !! 3
               = Some entry2) by (vm_compute; reflexivity).
  assert (H3 : 2 < 3) by lia.
  assert (H4 : would_block zmq_EAGAIN (retried_then_taken 2) = false)
    by reflexivity.
  cbv zeta. split; [exact H1|]. split; [exact H2|]. split; [exact H4|].
  exact (answered_call_is_not_repeated zmq_NOBLOCK zmq_EAGAIN
           retried_then_taken (answers []) sends_then_two_firings
           2 3 entry1 entry2 H1 H2 H3 H4).
Defined.

Lemma queued_future_is_unsettled_witness :
  let w := run zmq_NOBLOCK zmq_EAGAIN (answers []) (answers [])
               sends_then_cancel init in
  In entry2 (_buffer w) /\
  (futures w !! e_fut entry2 = Some Pending \/
   futures w !! e_fut entry2 = Some Cancelled).
Proof.
  assert (H : In entry2 (_buffer (run zmq_NOBLOCK zmq_EAGAIN (answers [])
                                      (answers []) sends_then_cancel init))).
  { right. left. reflexivity. }
  cbv zeta. split; [exact H|].
  exact (queued_future_is_unsettled zmq_NOBLOCK zmq_EAGAIN (answers [])
           (answers []) sends_then_cancel entry2 H).
Defined.

Lemma accepted_drain_empties_queue_witness :
  let w := run zmq_NOBLOCK zmq_EAGAIN takes_all (answers []) three_sends init in
  let w' := run zmq_NOBLOCK zmq_EAGAIN takes_all (answers [])
                (three_sends ++ [WriteReady]) init in
  _buffer w' = [] /\
  writer w' = false /\
  sent w' = sent w ++ _buffer w /\
  futures w' !! e_fut entry3 = Some (Finished (takes_all (length (sent w) + 2))).
Proof.
  set (w := run zmq_NOBLOCK zmq_EAGAIN takes_all (answers []) three_sends init).
  assert (H1 : forall e, In e (_buffer w) ->
                         futures w !! e_fut e <> Some Cancelled).
  { intros e [<- | [<- | [<- | []]]]; discriminate. }
  assert (H2 : forall i, i < length (_buffer w) ->
             exists r, takes_all (length (sent w) + i) = Done r).
  { intros [|[|[|i]]] Hi; [exists PyNone; reflexivity .. | simpl in Hi; lia]. }
  destruct (accepted_drain_empties_queue zmq_NOBLOCK zmq_EAGAIN takes_all
              (answers []) three_sends H1 H2) as (A & B & C & D).
  cbv zeta. split; [exact A|]. split; [exact B|]. split; [exact C|].
  exact (D 2 entry3 eq_refl).
Defined.

Lemma queued_send_keeps_caller_flags_witness :
  let w := run zmq_NOBLOCK zmq_EAGAIN takes_all (answers []) one_send init in
  let w' := run zmq_NOBLOCK zmq_EAGAIN takes_all (answers [])
                (one_send ++ [CallSend (PyBytes [x02]) 0 true false; WriteReady])
                init in
  has_noblock zmq_NOBLOCK 0 = false /\
  sent w' = sent w ++ _buffer w
            ++ [Entry (length (futures w)) [x02] 0 true false] /\
  _buffer w' = [] /\ writer w' = false.
Proof.
  set (w := run zmq_NOBLOCK zmq_EAGAIN takes_all (answers []) one_send init).
  assert (H1 : [x02] <> @nil byte) by discriminate.
  assert (H2 : _buffer w <> []) by discriminate.
  assert (H3 : forall e, In e (_buffer w) ->
                         futures w !! e_fut e <> Some Cancelled).
  { intros e [<- | []]; discriminate. }
  assert (H4 : forall i, i <= length (_buffer w) ->
             exists r, takes_all (length (sent w) + i) = Done r).
  { intros [|[|i]] Hi; [exists PyNone; reflexivity .. | simpl in Hi; lia]. }
  destruct (queued_send_keeps_caller_flags zmq_NOBLOCK zmq_EAGAIN takes_all
              (answers []) one_send [x02] 0 true false H1 H2 H3 H4)
    as (A & _ & C & D).
  cbv zeta. split; [reflexivity|]. split; [exact A|].
  split; [exact C | exact D].
Defined.

Lemma blocked_head_blocks_queue_witness :
  let w' := run zmq_NOBLOCK zmq_EAGAIN (answers []) (answers [])
                (replicate 3 WriteReady) three_queued in
  _buffer w' = entry1 :: [entry2; entry3] /\
  sent w' = sent three_queued ++ replicate 3 entry1 /\
  futures w' = futures three_queued /\
  writer w' = true.
Proof.
  assert (H1 : _buffer three_queued = entry1 :: [entry2; entry3]) by reflexivity.
  assert (H2 : writer three_queued = true) by reflexivity.
  assert (H3 : forall i, i < 3 ->
     would_block zmq_EAGAIN (answers [] (length (sent three_queued) + i)) = true).
  { intros i _. rewrite answers_nil_again. reflexivity. }
  destruct (blocked_head_blocks_queue zmq_NOBLOCK zmq_EAGAIN (answers [])
              (answers []) 3 three_queued entry1 [entry2; entry3] H1 H2 H3)
    as (A & B & C & D & _).
  cbv zeta. split; [exact A|]. split; [exact B|]. split; [exact C | exact D].
Defined.

Lemma wire_calls_come_from_sends_witness :
  let w := run zmq_NOBLOCK zmq_EAGAIN (answers []) (answers []) three_sends init in
  In entry1 (sent w ++ _buffer w) /\
  sent_by zmq_NOBLOCK three_sends entry1.
Proof.
  assert (H : In entry1
                (sent (run zmq_NOBLOCK zmq_EAGAIN (answers []) (answers [])
                           three_sends init)
                 ++ _buffer (run zmq_NOBLOCK zmq_EAGAIN (answers []) (answers [])
                                 three_sends init)))
    by (left; reflexivity).
  cbv zeta. split; [exact H|].
  exact (wire_calls_come_from_sends zmq_NOBLOCK zmq_EAGAIN (answers [])
           (answers []) three_sends entry1 H).
Defined.

Lemma finished_future_holds_answer_witness :
  let w := run zmq_NOBLOCK zmq_EAGAIN takes_two (answers [])
               sends_then_firing init in
  futures w !! 1 = Some (Finished (Done PyNone)) /\
  ((exists i a, sent w !! i = Some a /\ e_fut a = 1 /\ takes_two i = Done PyNone) \/
   (exists j, j < length (recvd w) /\ answers [] j = Done PyNone)).
Proof.
  assert (H : futures (run zmq_NOBLOCK zmq_EAGAIN takes_two (answers [])
                           sends_then_firing init) !! 1
              = Some (Finished (Done PyNone))) by (vm_compute; reflexivity).
  cbv zeta. split; [exact H|].
  exact (finished_future_holds_answer zmq_NOBLOCK zmq_EAGAIN takes_two
           (answers []) sends_then_firing 1 (Done PyNone) H).
Defined.

(** * Drains that meet a cancelled entry *)

(** C2 fails on this run: three sends are queued, the future of the
    first is cancelled, write readiness fires, and the transport takes
    every message it is given.  The drain calls the transport for the
    cancelled entry, [set_result] and then [set_exception] raise
    [InvalidStateError], and the firing ends there: the second and the
    third entry, which the transport would have taken, are not
    attempted, and their futures are still pending.  The drain has
    stopped at neither a would-block nor a transport error. *)
Theorem cancelled_entry_stops_drain :
  let w := run zmq_NOBLOCK zmq_EAGAIN takes_all (answers [])
               sends_then_cancel_first init in
  let out := fire_write zmq_EAGAIN takes_all w in
  _buffer w = [entry1; entry2; entry3] /\
  futures w = [Cancelled; Pending; Pending] /\
  writer w = true /\
  takes_all 1 = Done PyNone /\
  takes_all 2 = Done PyNone /\
  takes_all 3 = Done PyNone /\
  fst out = Raise InvalidStateError /\
  sent (snd out) = sent w ++ [entry1] /\
  _buffer (snd out) = [entry2; entry3] /\
  futures (snd out) = [Cancelled; Pending; Pending].
Proof. cbv zeta. repeat split; vm_compute; reflexivity. Qed.

(** C7 fails on this run: three sends are queued, the future of the
    second is cancelled, write readiness fires; the transport takes the
    first message and refuses the second with an error that is not a
    would-block.  [set_exception] on the cancelled future raises
    [InvalidStateError], which leaves [_send_ready]: the firing does not
    return normally, and the transport's error is the exception of no
    future. *)
Theorem error_on_cancelled_entry_escapes :
  let w := run zmq_NOBLOCK zmq_EAGAIN refuses_second (answers [])
               sends_then_cancel init in
  let out := fire_write zmq_EAGAIN refuses_second w in
  _buffer w = [entry1; entry2; entry3] /\
  futures w = [Pending; Cancelled; Pending] /\
  writer w = true /\
  refuses_second 1 = Done PyNone /\
  refuses_second 2 = Fails (ZMQError EHOSTUNREACH) /\
  fst out = Raise InvalidStateError /\
  sent (snd out) = sent w ++ [entry1; entry2] /\
  _buffer (snd out) = [entry3] /\
  futures (snd out) = [Finished (Done PyNone); Cancelled; Pending] /\
  ~ In (Finished (Fails (ZMQError EHOSTUNREACH))) (futures (snd out)).
Proof.
  cbv zeta. repeat split; try (vm_compute; reflexivity).
  vm_compute. intros [H | [H | [H | []]]]; discriminate H.
Qed.
